(** * GameContainer: analysis, injection and message handling of embedded games

    A shallow embedding of the logic of
    [src/game-agent-frontend/src/components/GameContainer.tsx]:

    - [analyzeGameHtml]: six regular-expression heuristics over the markup;
    - [injectGameEnhancements]: the three-tier insertion of the enhancement
      bundle;
    - [handleMessage] / [handleScoreUpdate]: the host-side message listener
      and the score parser;
    - the sizing arithmetic of [handleResize] inside the injected bundle;
    - the component itself: the effect on [gameData], the [onload] handler,
      [handleRefresh] and the listeners that [setupMessageChannel] installs,
      as a transition system over its events;
    - the rest of the injected script: the replaced [alert] and [confirm],
      [sendGameStatus], the score observer, [pickGameRoot] and the branch
      of [handleResize] for a root that is no canvas.

    The injected script is embedded as it is written in the bundle, with
    its type annotations ([as HTMLElement[]] and the like) erased.

    JavaScript strings are sequences of UTF-16 code units, numbers are IEEE
    754 binary64 values ([spec_float] with precision 53 and maximal exponent
    1024), and regular expressions are run by a backtracking matcher that
    follows the continuation-passing formulation of the ECMAScript
    standard. *)

From Stdlib Require Import Ascii String.
From Stdlib Require Import List Bool Arith ZArith NArith Lia.
From Stdlib Require Import Floats.SpecFloat.
Import ListNotations.
Local Open Scope list_scope.

(* ================================================================== *)
(** * Strings *)
(* ================================================================== *)

Module JsString.

(** A UTF-16 code unit, [0 <= c < 65536]. *)
Definition cu := N.
Bind Scope N_scope with cu.

(** A JavaScript string value. *)
Definition str := list cu.

Definition cu_eqb (a b : cu) : bool := N.eqb a b.

(** ** Source text to code units

    The TypeScript file is UTF-8; a string literal of the program denotes
    the UTF-16 encoding of the characters between its quotes. [js] turns a
    literal, written here with the same characters, into that sequence. *)

Fixpoint utf8_decode (acc : N) (pending : nat) (bs : list N) : list N :=
  match bs with
  | [] => []
  | b :: bs' =>
      match pending with
      | O =>
          if (b <? 128)%N then b :: utf8_decode 0%N 0 bs'
          else if (b <? 224)%N then utf8_decode (b - 192)%N 1 bs'
          else if (b <? 240)%N then utf8_decode (b - 224)%N 2 bs'
          else utf8_decode (b - 240)%N 3 bs'
      | S O => (acc * 64 + (b - 128))%N :: utf8_decode 0%N 0 bs'
      | S p => utf8_decode (acc * 64 + (b - 128))%N p bs'
      end
  end.

Definition utf16_encode (cp : N) : list cu :=
  if (cp <? 65536)%N then [cp]
  else
    let v := (cp - 65536)%N in
    [(55296 + v / 1024)%N; (56320 + v mod 1024)%N].

Definition js (s : string) : str :=
  flat_map utf16_encode
    (utf8_decode 0%N 0 (map N_of_ascii (list_ascii_of_string s))).

(** The code unit of a one-character literal. *)
Definition chr (s : string) : cu := hd 0%N (js s).

(** The double quote character, which a literal of this file cannot hold. *)
Definition dquote : string := String (ascii_of_nat 34) EmptyString.

Fixpoint str_eqb (a b : str) : bool :=
  match a, b with
  | [], [] => true
  | x :: a', y :: b' => if cu_eqb x y then str_eqb a' b' else false
  | _, _ => false
  end.

(** ** [String.prototype.indexOf], [includes] and [startsWith] *)

Fixpoint startsWith (s p : str) {struct p} : bool :=
  match p, s with
  | [], _ => true
  | _ :: _, [] => false
  | a :: p', b :: s' => if cu_eqb a b then startsWith s' p' else false
  end.

(** [indexOf s p] is the least position at which [p] occurs in [s];
    [None] stands for the result [-1]. *)
Fixpoint indexOf (s p : str) : option nat :=
  if startsWith s p then Some 0
  else
    match s with
    | [] => None
    | _ :: s' => option_map S (indexOf s' p)
    end.

Definition includes (s p : str) : bool :=
  match indexOf s p with
  | Some _ => true
  | None => false
  end.

(** ** [String.prototype.replace] with a string pattern

    The first occurrence of the pattern is replaced by the expansion of the
    replacement template (the standard's GetSubstitution).  With a string
    pattern there are no captures, so only [$$], [$&], [$`] and [$'] are
    special; every other use of [$] stands for itself. *)

Definition dollar : cu := 36%N.

Fixpoint GetSubstitution (matched before after templ : str) : str :=
  match templ with
  | [] => []
  | c :: t =>
      if cu_eqb c dollar then
        match t with
        | [] => [c]
        | d :: t' =>
            if cu_eqb d 36%N then
              dollar :: GetSubstitution matched before after t'
            else if cu_eqb d 38%N then
              matched ++ GetSubstitution matched before after t'
            else if cu_eqb d 96%N then
              before ++ GetSubstitution matched before after t'
            else if cu_eqb d 39%N then
              after ++ GetSubstitution matched before after t'
            else c :: GetSubstitution matched before after t
        end
      else c :: GetSubstitution matched before after t
  end.

Definition replace (s pat templ : str) : str :=
  match indexOf s pat with
  | None => s
  | Some pos =>
      let before := firstn pos s in
      let after := skipn (pos + length pat) s in
      before ++ GetSubstitution pat before after templ ++ after
  end.

End JsString.
Import JsString.

(* ================================================================== *)
(** * Regular expressions *)
(* ================================================================== *)

Module Regex.

(** ** Character tests *)

Definition in_range (lo hi c : cu) : bool := (lo <=? c)%N && (c <=? hi)%N.

(** [\d] *)
Definition is_digit (c : cu) : bool := in_range 48 57 c.

(** Line terminators: LF, CR, LS and PS. *)
Definition is_line_terminator (c : cu) : bool :=
  cu_eqb c 10 || cu_eqb c 13 || cu_eqb c 8232 || cu_eqb c 8233.

(** [\s]: the standard's WhiteSpace and LineTerminator code points. *)
Definition is_space (c : cu) : bool :=
  in_range 9 13 c || cu_eqb c 32 || cu_eqb c 160 || cu_eqb c 5760
  || in_range 8192 8202 c || cu_eqb c 8232 || cu_eqb c 8233
  || cu_eqb c 8239 || cu_eqb c 8287 || cu_eqb c 12288 || cu_eqb c 65279.

(** Case folding of the [i] flag (without the [u] flag the standard's
    Canonicalize maps a code unit to its upper-case form, and never maps a
    code unit above 127 to one below 128).  The patterns of this program
    consist of ASCII characters and of CJK ideographs, which have no case,
    so that the classes of their characters under Canonicalize are the
    ASCII ones below: a letter matches its two cases, and any other pattern
    character matches itself only. *)
Definition canonicalize (c : cu) : cu :=
  if in_range 97 122 c then (c - 32)%N else c.

Definition char_match (ignoreCase : bool) (p c : cu) : bool :=
  if ignoreCase then cu_eqb (canonicalize p) (canonicalize c) else cu_eqb p c.

(** ** Syntax *)

Inductive class_item : Type :=
  | CChar (c : cu)       (* a literal member *)
  | CSpace               (* \s inside a class *)
  | CDigit.              (* \d inside a class *)

Inductive regex : Type :=
  | Eps                                   (* the empty pattern *)
  | Chr (c : cu)                          (* a pattern character *)
  | Dot                                   (* .   *)
  | Space                                 (* \s  *)
  | Digit                                 (* \d  *)
  | Class (negated : bool) (items : list class_item)   (* [...] and [^...] *)
  | Seq (a b : regex)                     (* ab  *)
  | Alt (a b : regex)                     (* a|b *)
  | Star (greedy : bool) (a : regex)      (* a* and a*? *)
  | Plus (a : regex)                      (* a+  *)
  | Group (n : nat) (a : regex).          (* the n-th capturing group *)

(** A regular expression object: its pattern and its [i] flag.  None of the
    program's expressions has the [g] or [y] flag, so that [test] and
    [match] always start at position 0 and keep no state. *)
Record RegExp : Type := mkRegExp { source : regex; ignoreCase : bool }.

Definition item_match (ignoreCase : bool) (c : cu) (it : class_item) : bool :=
  match it with
  | CChar p => char_match ignoreCase p c
  | CSpace => is_space c
  | CDigit => is_digit c
  end.

Definition class_match (ignoreCase negated : bool) (items : list class_item)
    (c : cu) : bool :=
  xorb negated (existsb (item_match ignoreCase c) items).

(** ** The backtracking matcher

    A state is the rest of the input and the captures made so far.  A
    continuation tells whether the rest of the pattern matches from a
    state; failure is [None]. *)

Definition captures := list (nat * str).

Definition state := (str * captures)%type.

Definition continuation := str -> captures -> option state.

Definition matcher := continuation -> str -> captures -> option state.

Definition capture (n : nat) (c : captures) : option str :=
  match find (fun e => Nat.eqb (fst e) n) c with
  | Some e => Some (snd e)
  | None => None
  end.

(** One character, accepted by [p]. *)
Definition char_set_matcher (p : cu -> bool) : matcher :=
  fun k s c =>
    match s with
    | [] => None
    | x :: s' => if p x then k s' c else None
    end.

(** The standard's RepeatMatcher with no upper bound and minimum 0: an
    iteration that consumes nothing fails, which is what bounds the number
    of iterations by the length of the input. *)
Fixpoint repeat_matcher (ma : matcher) (greedy : bool) (fuel : nat)
    : matcher :=
  fun k s c =>
    match fuel with
    | O => k s c
    | S fuel' =>
        let again :=
          ma (fun s' c' =>
                if length s' <? length s
                then repeat_matcher ma greedy fuel' k s' c'
                else None) s c in
        if greedy then
          match again with
          | Some r => Some r
          | None => k s c
          end
        else
          match k s c with
          | Some r => Some r
          | None => again
          end
    end.

Fixpoint compile (i : bool) (r : regex) {struct r} : matcher :=
  match r with
  | Eps => fun k s c => k s c
  | Chr p => char_set_matcher (char_match i p)
  | Dot => char_set_matcher (fun x => negb (is_line_terminator x))
  | Space => char_set_matcher is_space
  | Digit => char_set_matcher is_digit
  | Class negated items => char_set_matcher (class_match i negated items)
  | Seq a b => fun k s c => compile i a (compile i b k) s c
  | Alt a b =>
      fun k s c =>
        match compile i a k s c with
        | Some r => Some r
        | None => compile i b k s c
        end
  | Star greedy a =>
      fun k s c => repeat_matcher (compile i a) greedy (S (length s)) k s c
  | Plus a =>
      fun k s c =>
        compile i a
          (fun s' c' =>
             repeat_matcher (compile i a) true (S (length s')) k s' c')
          s c
  | Group n a =>
      fun k s c =>
        compile i a
          (fun s' c' => k s' ((n, firstn (length s - length s') s) :: c'))
          s c
  end.

(** Matching at the current position. *)
Definition match_here (re : RegExp) (s : str) : option state :=
  compile (ignoreCase re) (source re) (fun s' c' => Some (s', c')) s [].

(** The standard's RegExpBuiltinExec without [g] and [y]: the positions
    0, 1, ..., length are tried in turn and the first match wins. *)
Fixpoint exec (re : RegExp) (s : str) : option state :=
  match match_here re s with
  | Some r => Some r
  | None =>
      match s with
      | [] => None
      | _ :: s' => exec re s'
      end
  end.

(** [RegExp.prototype.test] *)
Definition test (re : RegExp) (s : str) : bool :=
  match exec re s with
  | Some _ => true
  | None => false
  end.

(** [String.prototype.match] with a non-global expression: [None] is the
    result [null], otherwise the captures of the first match. *)
Definition match_ (s : str) (re : RegExp) : option captures :=
  option_map snd (exec re s).

(** ** Writing patterns *)

Definition lit (s : string) : regex :=
  fold_right (fun c r => Seq (Chr c) r) Eps (js s).

Declare Scope regex_scope.
Delimit Scope regex_scope with re.
Bind Scope regex_scope with regex.
Infix "·" := Seq (at level 40, left associativity) : regex_scope.
Infix "∣" := Alt (at level 50, left associativity) : regex_scope.

End Regex.
Import Regex.

(* ================================================================== *)
(** * Numbers *)
(* ================================================================== *)

Module JsNumber.

Local Open Scope Z_scope.

(** A Number value: IEEE 754 binary64. *)
Definition number := spec_float.

Definition prec : Z := 53.
Definition emax : Z := 1024.

Definition NaN : number := S754_nan.
Definition Infinity : number := S754_infinity false.

(** The Number value for a mathematical integer. *)
Definition of_Z (z : Z) : number := binary_normalize prec emax z 0 false.

(** The Number value for the rational [p/q], rounded to nearest, ties to
    even; this is what a decimal literal such as [0.92] denotes. *)
Definition of_Q (negative : bool) (p q : positive) : number :=
  SFdiv prec emax (S754_finite negative p 0) (S754_finite false q 0).


(** ToBoolean of a Number: [0], [-0] and [NaN] are falsy. *)
Definition truthy (x : number) : bool :=
  match x with
  | S754_zero _ | S754_nan => false
  | _ => true
  end.







(** ** Digits *)

Definition digit_value (c : cu) : Z := Z.of_N c - 48.

(** The value of a sequence of decimal digits. *)
Definition decimal_value (ds : str) : Z :=
  fold_left (fun acc c => 10 * acc + digit_value c) ds 0.

Definition hex_digit_value (c : cu) : option Z :=
  if in_range 48 57 c then Some (Z.of_N c - 48)
  else if in_range 97 102 c then Some (Z.of_N c - 87)
  else if in_range 65 70 c then Some (Z.of_N c - 55)
  else None.

Definition is_hex_digit (c : cu) : bool :=
  match hex_digit_value c with
  | Some _ => true
  | None => false
  end.

Definition radix_value (radix : Z) (ds : str) : Z :=
  fold_left
    (fun acc c =>
       radix * acc + match hex_digit_value c with Some v => v | None => 0 end)
    ds 0.

(** The longest prefix whose elements satisfy [p], and the rest. *)
Fixpoint span (p : cu -> bool) (s : str) : str * str :=
  match s with
  | [] => ([], [])
  | x :: s' =>
      if p x then let (a, b) := span p s' in (x :: a, b) else ([], s)
  end.

Definition trim_start (s : str) : str := snd (span is_space s).

(** ** [parseInt] with no radix argument *)

Definition parseInt (input : str) : number :=
  let s := trim_start input in
  let (negative, s) :=
    match s with
    | c :: s' =>
        if cu_eqb c 45 then (true, s')
        else if cu_eqb c 43 then (false, s')
        else (false, s)
    | [] => (false, s)
    end in
  let (hex, s) :=
    match s with
    | z :: x :: s' =>
        if cu_eqb z 48 && (cu_eqb x 120 || cu_eqb x 88)
        then (true, s') else (false, s)
    | _ => (false, s)
    end in
  let digits := fst (span (if hex then is_hex_digit else is_digit) s) in
  match digits with
  | [] => NaN
  | _ =>
      let mathInt := radix_value (if hex then 16 else 10) digits in
      binary_normalize prec emax (if negative then - mathInt else mathInt)
        0 negative
  end.

End JsNumber.
Import JsNumber.

Module JsConvert.

Local Open Scope Z_scope.

(** ** Number::toString (radix 10)

    For a positive finite [x] the standard picks integers [n], [k] and [s]
    with [10^(k-1) <= s < 10^k], such that [s * 10^(n-k)] rounds to [x]
    and [k] is as small as possible; among several such [s] the one whose
    value is closest to [x] (the even one on a tie). *)

Fixpoint digits_rev (fuel : nat) (z : Z) : str :=
  match fuel with
  | O => []
  | S fuel' =>
      (48 + Z.to_N (z mod 10))%N
        :: (if z <? 10 then [] else digits_rev fuel' (z / 10))
  end.

(** The decimal digits of a non-negative integer below [10^400]. *)
Definition digits_of (z : Z) : str := rev (digits_rev 400 z).

Fixpoint least_scale (fuel : nat) (j num den : Z) : Z :=
  match fuel with
  | O => j
  | S fuel' =>
      if den <=? num * 10 ^ j then j else least_scale fuel' (j + 1) num den
  end.

(** [n] such that [10^(n-1) <= num/den < 10^n]. *)
Definition decimal_exponent (num den : Z) : Z :=
  if den <=? num then Z.of_nat (length (digits_of (num / den)))
  else 1 - least_scale 400 1 num den.

(** The Number value for [s * 10^e], [s > 0]. *)
Definition of_decimal (negative : bool) (s e : Z) : number :=
  if 0 <=? e then of_Q negative (Z.to_pos (s * 10 ^ e)) 1
  else of_Q negative (Z.to_pos s) (Z.to_pos (10 ^ (- e))).

(** The [k]-digit candidate for [x = num/den] with decimal exponent [n]:
    [Some (s, n')], the digits and the exponent, when one of the two
    [k]-digit decimals around [x] rounds to [x]. *)
Definition candidate (x : number) (num den n k : Z) : option (Z * Z) :=
  let a := if 0 <=? k - n then num * 10 ^ (k - n) else num in
  let b := if 0 <=? k - n then den else den * 10 ^ (n - k) in
  let lo := a / b in
  let r := a mod b in
  let hi := lo + 1 in
  let ok_lo := SFeqb (of_decimal false lo (n - k)) x in
  let ok_hi := SFeqb (of_decimal false hi (n - k)) x in
  let norm s := if s =? 10 ^ k then (10 ^ (k - 1), n + 1) else (s, n) in
  match ok_lo, ok_hi with
  | false, false => None
  | true, false => Some (norm lo)
  | false, true => Some (norm hi)
  | true, true =>
      match 2 * r ?= b with
      | Lt => Some (norm lo)
      | Gt => Some (norm hi)
      | Eq => Some (norm (if Z.even lo then lo else hi))
      end
  end.

Fixpoint shortest (fuel : nat) (x : number) (num den n k : Z)
    : Z * Z * Z :=
  match fuel with
  | O => (num / den, n, k)
  | S fuel' =>
      match candidate x num den n k with
      | Some (s, n') => (s, n', k)
      | None => shortest fuel' x num den n (k + 1)
      end
  end.

Definition zeros (n : Z) : str := repeat 48%N (Z.to_nat n).

Definition format_decimal (s n k : Z) : str :=
  let ds := digits_of s in
  if (k <=? n) && (n <=? 21) then ds ++ zeros (n - k)
  else if (0 <? n) && (n <=? 21) then
    firstn (Z.to_nat n) ds ++ js "." ++ skipn (Z.to_nat n) ds
  else if (-6 <? n) && (n <=? 0) then js "0." ++ zeros (- n) ++ ds
  else
    let e := n - 1 in
    let exponent :=
      js "e" ++ (if e <? 0 then js "-" else js "+") ++ digits_of (Z.abs e) in
    match ds with
    | d :: (_ :: _) as rest => d :: js "." ++ rest ++ exponent
    | _ => ds ++ exponent
    end.

Definition Number_toString (x : number) : str :=
  match x with
  | S754_nan => js "NaN"
  | S754_zero _ => js "0"
  | S754_infinity s => (if s then js "-" else []) ++ js "Infinity"
  | S754_finite s m e =>
      let num := if 0 <=? e then Zpos m * 2 ^ e else Zpos m in
      let den := if 0 <=? e then 1 else 2 ^ (- e) in
      let n := decimal_exponent num den in
      let '(d, n', k) := shortest 17 (S754_finite false m e) num den n 1 in
      (if s then js "-" else []) ++ format_decimal d n' k
  end.

(** ** StringToNumber: the conversion [Number(s)] of a string *)







End JsConvert.
Import JsConvert.

(* ================================================================== *)
(** * Values and completions *)
(* ================================================================== *)

Module JsValue.

(** The values a message can carry after the structured clone of
    [postMessage]: primitives and plain objects whose properties are again
    such values (a function cannot be cloned, so no property is callable).
    Arrays and the other cloneable built-ins (Date, Map, ...) are not
    modelled. *)
#[local] Unset Elimination Schemes.
Inductive jsval : Type :=
  | VUndefined
  | VNull
  | VBool (b : bool)
  | VNum (x : number)
  | VStr (s : str)
  | VObj (props : list (str * jsval)).
#[local] Set Elimination Schemes.

(** The outcome of an evaluation: a value, or a thrown [TypeError]. *)
Inductive completion (A : Type) : Type :=
  | Normal (a : A)
  | TypeError.

Arguments Normal {A} a.
Arguments TypeError {A}.

Definition bind {A B : Type} (c : completion A) (f : A -> completion B)
    : completion B :=
  match c with
  | Normal a => f a
  | TypeError => TypeError
  end.

Declare Scope completion_scope.
Delimit Scope completion_scope with completion.
Notation "x <- c ;; f" := (bind c (fun x => f))
  (at level 61, c at next level, right associativity) : completion_scope.

Definition ToBoolean (v : jsval) : bool :=
  match v with
  | VUndefined | VNull => false
  | VBool b => b
  | VNum x => truthy x
  | VStr s => negb (Nat.eqb (length s) 0)
  | VObj _ => true
  end.


Definition own (props : list (str * jsval)) (name : str) : option jsval :=
  option_map snd (find (fun p => str_eqb (fst p) name) props).

(** [v.name] for a property name that neither [Object.prototype] nor the
    wrappers of the primitives define (all the names the program reads:
    [type], [message], [status], [data], [score]). *)
Definition Get (v : jsval) (name : string) : completion jsval :=
  match v with
  | VUndefined | VNull => TypeError
  | VObj props =>
      Normal match own props (js name) with
             | Some x => x
             | None => VUndefined
             end
  | _ => Normal VUndefined
  end.

(** [v?.name] *)
Definition GetOptional (v : jsval) (name : string) : jsval :=
  match Get v name with
  | Normal x => x
  | TypeError => VUndefined
  end.

(** [v === 'literal'] *)
Definition strict_equals (v : jsval) (literal : string) : bool :=
  match v with
  | VStr s => str_eqb s (js literal)
  | _ => false
  end.

(** The method call [v.toString()].  An own property [toString] of a
    cloned object shadows [Object.prototype.toString] and is not callable. *)
Definition call_toString (v : jsval) : completion str :=
  match v with
  | VUndefined | VNull => TypeError
  | VBool b => Normal (if b then js "true" else js "false")
  | VNum x => Normal (Number_toString x)
  | VStr s => Normal s
  | VObj props =>
      match own props (js "toString") with
      | Some _ => TypeError
      | None => Normal (js "[object Object]")
      end
  end.


End JsValue.
Import JsValue.

(* ================================================================== *)
(** * The host side: message listener and score parser *)
(* ================================================================== *)

Module Host.

Local Open Scope completion_scope.
Local Open Scope regex_scope.

(** [useState({ correct: 0, wrong: 0, progress: 0 })] *)
Record ScoreState : Type :=
  mkScore { correct : number; wrong : number; progress : number }.

Definition initialScore : ScoreState :=
  mkScore (of_Z 0) (of_Z 0) (of_Z 0).

(** [[:\s]] *)
Definition separator : regex := Class false [CChar (chr ":"); CSpace].

(** [/正确[:\s]*(\d+)/i], [/错误[:\s]*(\d+)/i] and [/进度[:\s]*(\d+)/i] *)
Definition labelled (label : string) : RegExp :=
  mkRegExp (lit label · Star true separator · Group 1 (Plus Digit)) true.

Definition correctPattern : RegExp := labelled "正确".
Definition wrongPattern : RegExp := labelled "错误".
Definition progressPattern : RegExp := labelled "进度".

(** [parseInt(m[1])]; a capture that did not take part is [undefined],
    which [parseInt] reads as the text "undefined". *)
Definition parseInt_capture (m : captures) : number :=
  match capture 1 m with
  | Some digits => parseInt digits
  | None => NaN
  end.

(** [handleScoreUpdate]: [Normal (Some s)] when [setGameScore s] is called,
    [Normal None] when the guard fails.  [gameScore] is the state the
    closure holds. *)
Definition handleScoreUpdate (gameScore : ScoreState) (data : jsval)
    : completion (option ScoreState) :=
  if ToBoolean (GetOptional data "score") then
    scoreText <- call_toString (GetOptional data "score") ;;
    let correctMatch := match_ scoreText correctPattern in
    let wrongMatch := match_ scoreText wrongPattern in
    let progressMatch := match_ scoreText progressPattern in
    Normal (Some
      {| correct := match correctMatch with
                    | Some m => parseInt_capture m
                    | None => correct gameScore
                    end;
         wrong := match wrongMatch with
                  | Some m => parseInt_capture m
                  | None => wrong gameScore
                  end;
         progress := match progressMatch with
                     | Some m => parseInt_capture m
                     | None => progress gameScore
                     end |})
  else Normal None.

(** What the listener asks of its collaborators. *)
Inductive effect : Type :=
  | message_info (content : jsval)
  | message_warning (content : jsval)
  | setGameScore (s : ScoreState).

(** [handleMessage], applied to [event.data]. *)
Definition handleMessage (gameScore : ScoreState) (data : jsval)
    : completion (list effect) :=
  if strict_equals (GetOptional data "type") "game-alert" then
    content <- Get data "message" ;;
    Normal [message_info content]
  else if strict_equals (GetOptional data "type") "game-confirm" then
    content <- Get data "message" ;;
    Normal [message_warning content]
  else if strict_equals (GetOptional data "type") "game-status" then
    status <- Get data "status" ;;
    if strict_equals status "score-update" then
      payload <- Get data "data" ;;
      update <- handleScoreUpdate gameScore payload ;;
      Normal match update with
             | Some s => [setGameScore s]
             | None => []
             end
    else Normal []
  else Normal [].

(** The score state once the listener has run: a thrown error leaves it
    as it was. *)
Definition apply_effect (st : ScoreState) (e : effect) : ScoreState :=
  match e with
  | setGameScore s => s
  | _ => st
  end.

Definition score_after (gameScore : ScoreState) (data : jsval)
    : ScoreState :=
  match handleMessage gameScore data with
  | Normal effects => fold_left apply_effect effects gameScore
  | TypeError => gameScore
  end.

(** The score state after a score update alone. *)
Definition parse (previous : ScoreState) (payload : jsval) : ScoreState :=
  match handleScoreUpdate previous payload with
  | Normal (Some s) => s
  | _ => previous
  end.

End Host.
Import Host.

(* ================================================================== *)
(** * The sizing arithmetic of the injected [handleResize] *)
(* ================================================================== *)

Module Layout.

Local Open Scope completion_scope.










End Layout.
Import Layout.

(* ================================================================== *)
(** * The heuristic analyzer *)
(* ================================================================== *)

Module Analyzer.

Local Open Scope regex_scope.

Inductive Level : Type := info | warning | error.

(** [{ level, text }] *)
Record Suggestion : Type := mkSuggestion { level : Level; text : str }.

Definition spaces : regex := Star true Space.

(** [/左右按钮|点击左右|按下左右|left\s*button|right\s*button/i] *)
Definition mentionsButtons_re : RegExp :=
  mkRegExp
    (lit "左右按钮" ∣ lit "点击左右" ∣ lit "按下左右"
     ∣ lit "left" · spaces · lit "button"
     ∣ lit "right" · spaces · lit "button")
    true.

(** [/<button[^>]*>[^<]*左|<button[^>]*>[^<]*右/i] *)
Definition hasLeftRightButtons_re : RegExp :=
  mkRegExp
    (lit "<button" · Star true (Class true [CChar (chr ">")]) · lit ">"
       · Star true (Class true [CChar (chr "<")]) · lit "左"
     ∣ lit "<button" · Star true (Class true [CChar (chr ">")]) · lit ">"
       · Star true (Class true [CChar (chr "<")]) · lit "右")
    true.

(** [/ArrowLeft|ArrowRight/] *)
Definition hasArrowKeys_re : RegExp :=
  mkRegExp (lit "ArrowLeft" ∣ lit "ArrowRight") false.

(** [/getBoundingClientRect\(\)/] *)
Definition boundingRect_re : RegExp :=
  mkRegExp (lit "getBoundingClientRect()") false.

(** [/(left|right|top|bottom)/i] *)
Definition direction_re : RegExp :=
  mkRegExp
    (Group 1 (lit "left" ∣ lit "right" ∣ lit "top" ∣ lit "bottom")) true.

(** [/Math\.abs\([^)]*\)\s*<\s*\d+/] *)
Definition usesDistance_re : RegExp :=
  mkRegExp
    (lit "Math.abs(" · Star true (Class true [CChar (chr ")")]) · lit ")"
     · spaces · lit "<" · spaces · Plus Digit)
    false.

(** [/body\s*\{[^}]*?(display\s*:\s*flex|overflow\s*:\s*hidden)/i] *)
Definition setsBodyLayout_re : RegExp :=
  mkRegExp
    (lit "body" · spaces · lit "{"
     · Star false (Class true [CChar (chr "}")])
     · Group 1 (lit "display" · spaces · lit ":" · spaces · lit "flex"
                ∣ lit "overflow" · spaces · lit ":" · spaces · lit "hidden"))
    true.

(** [/(class=\"game-area\")|(id=\"game-container\")/i] *)
Definition hasGameArea_re : RegExp :=
  mkRegExp
    (Group 1 (lit ("class=" ++ dquote ++ "game-area" ++ dquote))
     ∣ Group 2 (lit ("id=" ++ dquote ++ "game-container" ++ dquote)))
    true.

(** [/charset=.*utf-8/i] *)
Definition charset_re : RegExp :=
  mkRegExp (lit "charset=" · Star true Dot · lit "utf-8") true.

Definition buttons_suggestion : Suggestion :=
  mkSuggestion warning
    (js "说明提到“左右按钮”，但页面未检测到对应的可点击按钮。建议补充可视化的左/右按钮，并保留键盘方向键支持。").

Definition arrowKeys_suggestion : Suggestion :=
  mkSuggestion info
    (js "未检测到键盘方向键(ArrowLeft/ArrowRight)事件，建议同时支持键盘操作以提升可玩性。").

Definition collision_suggestion : Suggestion :=
  mkSuggestion warning
    (js "碰撞检测疑似使用固定距离阈值。建议改为轴对齐矩形相交（AABB）以获得更稳定的判定。").

Definition bodyLayout_suggestion : Suggestion :=
  mkSuggestion info
    (js "检测到对 <body> 设置了全局布局（flex/overflow）。建议将布局限制在游戏容器内（如 .game-area/#game-container），避免影响宿主页面。").

Definition gameArea_suggestion : Suggestion :=
  mkSuggestion info
    (js "未检测到标准的游戏容器(.game-area 或 #game-container)。建议添加统一容器，便于自适应与样式隔离。").

Definition charset_suggestion : Suggestion :=
  mkSuggestion warning
    (js ("未检测到 UTF-8 编码声明，建议在 <head> 中加入 <meta charset="
         ++ dquote ++ "UTF-8" ++ dquote ++ ">。")).

(** [s.push(d)] *)
Definition push (s : list Suggestion) (d : Suggestion) : list Suggestion :=
  s ++ [d].

Definition usesAABB (html : str) : bool :=
  test boundingRect_re html && test direction_re html.

Definition usesDistance (html : str) : bool := test usesDistance_re html.

(** [analyzeGameHtml].  The unused [html.toLowerCase()] of the source is
    left out. *)
Definition analyzeGameHtml (html : str) : list Suggestion :=
  let s := [] in
  (* 1 *)
  let mentionsButtons := test mentionsButtons_re html in
  let hasLeftRightButtons := test hasLeftRightButtons_re html in
  let s :=
    if mentionsButtons && negb hasLeftRightButtons
    then push s buttons_suggestion else s in
  (* 2 *)
  let hasArrowKeys := test hasArrowKeys_re html in
  let s := if negb hasArrowKeys then push s arrowKeys_suggestion else s in
  (* 3 *)
  let s :=
    if negb (usesAABB html) && usesDistance html
    then push s collision_suggestion else s in
  (* 4 *)
  let setsBodyLayout := test setsBodyLayout_re html in
  let s := if setsBodyLayout then push s bodyLayout_suggestion else s in
  (* 5 *)
  let hasGameArea := test hasGameArea_re html in
  let s := if negb hasGameArea then push s gameArea_suggestion else s in
  (* 6 *)
  let s :=
    if negb (test charset_re html) then push s charset_suggestion else s in
  s.

End Analyzer.
Import Analyzer.

(* ================================================================== *)
(** * The enhancement injector *)
(* ================================================================== *)

Module Injector.

(** The template literal [enhancements], character for character. *)
Definition enhancements_source : string :=
  ("
      <script>
        // 替换alert为自定义提示
        window.alert = function(msg) {
          window.parent.postMessage({
            type: 'game-alert',
            message: msg
          }, '*');
        };
        
        // 替换confirm为自定义确认
        window.confirm = function(msg) {
          window.parent.postMessage({
            type: 'game-confirm',
            message: msg
          }, '*');
          return true; // 默认确认
        };
        
        // 发送游戏状态
        function sendGameStatus(status, data) {
          window.parent.postMessage({
            type: 'game-status',
            status: status,
            data: data
          }, '*');
        }
        
        // 选择游戏根节点：优先常见选择器，其次选择 body 下面积最大的元素
        function pickGameRoot() {
          const prefer = document.querySelector('#game-container, .game-area, .game-root, .game, .stage');
          if (prefer) return prefer;
          const nodes = Array.from(document.body.querySelectorAll('*')) as HTMLElement[];
          let best: HTMLElement | null = null;
          let bestArea = 0;
          for (const el of nodes) {
            if (!el.offsetWidth || !el.offsetHeight) continue;
            const style = getComputedStyle(el);
            if (style.position === 'fixed' || el.tagName === 'SCRIPT' || el.tagName === 'STYLE') continue;
            const area = el.offsetWidth * el.offsetHeight;
            if (area > bestArea) { bestArea = area; best = el; }
          }
          return best || document.body.firstElementChild as HTMLElement | null;
        }

        // 自适应处理：尽量填满可视区域（不使用 transform，避免布局错位）
        function handleResize() {
          const root = pickGameRoot();
          if (!root) return;
          const vw = Math.max(320, Math.floor(window.innerWidth * 0.92));
          const vh = Math.max(320, Math.floor(window.innerHeight * 0.88));

          // 通用容器限制
          root.style.maxWidth = vw + 'px';
          root.style.maxHeight = vh + 'px';
          root.style.margin = '0 auto';
          root.style.display = 'block';
          root.style.transform = '';
          (root as any).style?.removeProperty?.('transform');

          // 针对 Canvas 的等比缩放
          const canvas = (root.tagName === 'CANVAS') ? root as HTMLCanvasElement : (document.querySelector('canvas') as HTMLCanvasElement | null);
          if (canvas) {
            try {
              const cw = canvas.width || canvas.getAttribute('width') || 800;
              const ch = canvas.height || canvas.getAttribute('height') || 600;
              const ratio = Number(cw) / Number(ch);
              const targetWidth = Math.min(vw, Math.round(vh * ratio));
              const targetHeight = Math.round(Number(targetWidth) / ratio);
              canvas.style.width = String(targetWidth) + 'px';
              canvas.style.height = String(targetHeight) + 'px';
              canvas.style.display = 'block';
              canvas.style.margin = '0 auto';
            } catch (e) { /* 忽略 */ }
          } else {
            // 非 canvas：尽量保持等比，避免高度溢出
            const rw = root.scrollWidth || root.clientWidth || 800;
            const rh = root.scrollHeight || root.clientHeight || 600;
            const r = rw / (rh || 1);
            const w = Math.min(vw, Math.round(vh * r));
            root.style.width = w + 'px';
          }
        }
        
        window.addEventListener('resize', handleResize);
        window.addEventListener('orientationchange', handleResize);
        window.addEventListener('load', handleResize);
        
        // 监听得分变化
        document.addEventListener('DOMContentLoaded', function() {
          // 尝试获取游戏分数元素
          const observer = new MutationObserver(function() {
            const scoreElement = document.querySelector('[class*="
   ++ dquote ++ "score"
   ++ dquote ++ "], [id*="
   ++ dquote ++ "score"
   ++ dquote ++ "]');
            if (scoreElement) {
              sendGameStatus('score-update', { score: scoreElement.textContent });
            }
          });
          observer.observe(document.body, { childList: true, subtree: true, characterData: true });
          setTimeout(handleResize, 50);
          const ro = new ResizeObserver(() => handleResize());
          ro.observe(document.body);
        });
      </script>
      <style>
        /* 避免全局覆盖 body 布局，仅做基础重置与背景 */
        html, body {
          margin: 0;
          padding: 0;
          min-height: 100vh;
          background: linear-gradient(135deg, #667eea 0%, #764ba2 100%);
        }
        
        /* 将布局限制在游戏容器内 */
        .game-area, #game-container, .container {
          max-width: 100% !important;
          max-height: 100vh !important;
          margin: 0 auto !important;
        }
        
        /* 响应式Canvas */
        canvas {
          max-width: 100% !important;
          height: auto !important;
        }
      </style>
    ")%string.

Definition enhancements : str := Eval vm_compute in js enhancements_source.

(** [injectGameEnhancements] *)
Definition injectGameEnhancements (html : str) : str :=
  if includes html (js "</head>") then
    replace html (js "</head>") (enhancements ++ js "</head>")
  else if includes html (js "<body>") then
    replace html (js "<body>")
      (js "<head>" ++ enhancements ++ js "</head><body>")
  else enhancements ++ html.

End Injector.
Import Injector.

(* ================================================================== *)
(** * Vocabulary of the statements *)
(* ================================================================== *)

Module Occurrences.

(** [p] occurs in [s] at position [n]. *)
Definition occurs_at (p s : str) (n : nat) : Prop :=
  exists pre post, s = pre ++ p ++ post /\ length pre = n.

(** [p] occurs somewhere in [s]. *)
Definition occurs (p s : str) : Prop :=
  exists pre post, s = pre ++ p ++ post.

(** [s] splits at the first occurrence of [p]. *)
Definition first_split (p s pre post : str) : Prop :=
  s = pre ++ p ++ post /\ forall m, occurs_at p s m -> length pre <= m.





End Occurrences.
Import Occurrences.

Module RegexLanguage.

(** The words a pattern matches, whatever the order in which the matcher
    tries them. *)
Inductive lang (i : bool) : regex -> str -> Prop :=
  | lang_eps : lang i Eps []
  | lang_chr p c : char_match i p c = true -> lang i (Chr p) [c]
  | lang_dot c : is_line_terminator c = false -> lang i Dot [c]
  | lang_space c : is_space c = true -> lang i Space [c]
  | lang_digit c : is_digit c = true -> lang i Digit [c]
  | lang_class negated items c :
      class_match i negated items c = true ->
      lang i (Class negated items) [c]
  | lang_seq a b u v :
      lang i a u -> lang i b v -> lang i (Seq a b) (u ++ v)
  | lang_alt_l a b u : lang i a u -> lang i (Alt a b) u
  | lang_alt_r a b u : lang i b u -> lang i (Alt a b) u
  | lang_star_nil g a : lang i (Star g a) []
  | lang_star_cons g a u v :
      lang i a u -> lang i (Star g a) v -> lang i (Star g a) (u ++ v)
  | lang_plus a u v :
      lang i a u -> lang i (Star true a) v -> lang i (Plus a) (u ++ v)
  | lang_group n a u : lang i a u -> lang i (Group n a) u.

(** [w] is the literal [p], up to the case of letters when [i] is set. *)
Definition spells (i : bool) (p w : str) : Prop :=
  Forall2 (fun a b => char_match i a b = true) p w.

(** Some part of [s] is matched by the expression. *)
Definition matches_somewhere (re : RegExp) (s : str) : Prop :=
  exists pre w post,
    s = pre ++ w ++ post /\ lang (ignoreCase re) (source re) w.

(** A continuation whose success depends on the rest of the input only. *)
Definition accepts (k : continuation) (K : str -> Prop) : Prop :=
  forall s c, k s c <> None <-> K s.

(** [m] matches a word of [L] and then the rest is accepted. *)
Definition matcher_for (m : matcher) (L : str -> Prop) : Prop :=
  forall k K, accepts k K ->
  forall s c, m k s c <> None <-> exists u v, s = u ++ v /\ L u /\ K v.

(** A pattern character that is not a letter: it matches itself only,
    also under the [i] flag. *)
Definition caseless (p : cu) : Prop :=
  ~ (65 <= p <= 90)%N /\ ~ (97 <= p <= 122)%N.

(** [a] matches the single characters that satisfy [P]. *)
Definition atom_of (i : bool) (a : regex) (P : cu -> bool) : Prop :=
  forall u, lang i a u <-> exists c, u = [c] /\ P c = true.

End RegexLanguage.
Import RegexLanguage.

Module AnalyzerRules.

Local Open Scope regex_scope.

(** The six rules of the analyzer, in the order of the source. *)
Inductive Rule : Type :=
  | ButtonsRule | ArrowKeysRule | CollisionRule
  | BodyLayoutRule | GameAreaRule | CharsetRule.

Definition rules : list Rule :=
  [ButtonsRule; ArrowKeysRule; CollisionRule;
   BodyLayoutRule; GameAreaRule; CharsetRule].

(** The condition under which a rule pushes its suggestion. *)
Definition fires (r : Rule) (html : str) : bool :=
  match r with
  | ButtonsRule =>
      test mentionsButtons_re html && negb (test hasLeftRightButtons_re html)
  | ArrowKeysRule => negb (test hasArrowKeys_re html)
  | CollisionRule => negb (usesAABB html) && usesDistance html
  | BodyLayoutRule => test setsBodyLayout_re html
  | GameAreaRule => negb (test hasGameArea_re html)
  | CharsetRule => negb (test charset_re html)
  end.

Definition suggestion_of (r : Rule) : Suggestion :=
  match r with
  | ButtonsRule => buttons_suggestion
  | ArrowKeysRule => arrowKeys_suggestion
  | CollisionRule => collision_suggestion
  | BodyLayoutRule => bodyLayout_suggestion
  | GameAreaRule => gameArea_suggestion
  | CharsetRule => charset_suggestion
  end.

Definition level_eqb (a b : Level) : bool :=
  match a, b with
  | info, info | warning, warning | error, error => true
  | _, _ => false
  end.

Definition suggestion_eqb (a b : Suggestion) : bool :=
  level_eqb (level a) (level b) && str_eqb (text a) (text b).

(** How many entries of [l] are the suggestion [d]. *)
Definition count (d : Suggestion) (l : list Suggestion) : nat :=
  length (filter (fun x => suggestion_eqb x d) l).

(** No character of [u] is [x]. *)
Definition without (x : cu) (u : str) : Prop := ~ In x u.

(** Every character of [u] satisfies [P]. *)
Definition all (P : cu -> bool) (u : str) : Prop :=
  Forall (fun c => P c = true) u.

(** [p] occurs in [s] in some letter case. *)
Definition occurs_ci (p s : str) : Prop :=
  exists w, spells true p w /\ occurs w s.

(** Rule 3, the distance check: [Math.abs(], an argument with no closing
    parenthesis in it, [)], then [<] and a number, with optional white
    space around the [<]. *)
Definition distance_check (html : str) : Prop :=
  exists pre inner ws1 ws2 digits post,
    html = pre ++ js "Math.abs(" ++ inner ++ js ")" ++ ws1 ++ js "<"
               ++ ws2 ++ digits ++ post
    /\ without (chr ")") inner
    /\ all is_space ws1 /\ all is_space ws2
    /\ digits <> [] /\ all is_digit digits.

(** Rule 3, the bounding-box check: the text [getBoundingClientRect()]
    and, anywhere, one of the words left, right, top, bottom in any letter
    case. *)
Definition aabb_check (html : str) : Prop :=
  occurs (js "getBoundingClientRect()") html
  /\ exists word,
       In word [js "left"; js "right"; js "top"; js "bottom"]
       /\ occurs_ci word html.

(** Rule 6: [charset=] and, later on the same line, [utf-8], both in any
    letter case. *)
Definition declares_utf8 (html : str) : Prop :=
  exists pre a mid b post,
    html = pre ++ a ++ mid ++ b ++ post
    /\ spells true (js "charset=") a
    /\ all (fun c => negb (is_line_terminator c)) mid
    /\ spells true (js "utf-8") b.

(** The spec's words, HTML lacking any [<meta charset>] tag: no [<meta], in
    any letter case, followed inside its tag by [charset]. *)
Definition meta_charset_tag : RegExp :=
  mkRegExp
    (lit "<meta" · Star true (Class true [CChar (chr ">")]) · lit "charset")
    true.

Definition lacks_meta_charset (html : str) : bool :=
  negb (test meta_charset_tag html).

(** A page with no meta element, whose text mentions a charset. *)
Definition charset_in_text : str := js "<p>charset=utf-8</p>".

End AnalyzerRules.
Import AnalyzerRules.

Module ScoreVocabulary.

(** [[:\s]] *)
Definition is_separator (c : cu) : bool := cu_eqb c (chr ":") || is_space c.

(** The rest of [s] after a prefix spelled like [l]. *)
Fixpoint strip (i : bool) (l s : str) : option str :=
  match l, s with
  | [], _ => Some s
  | _ :: _, [] => None
  | a :: l', b :: s' => if char_match i a b then strip i l' s' else None
  end.

(** A labelled number at the start of [s]: the digits it captures
    and the text after them. *)
Definition labelled_here (label : string) (s : str) : option (str * str) :=
  match strip true (js label) s with
  | None => None
  | Some s' =>
      let t := snd (span is_separator s') in
      match fst (span is_digit t) with
      | [] => None
      | _ :: _ => Some (fst (span is_digit t), snd (span is_digit t))
      end
  end.

(** A label without letters: it matches itself only. *)
Definition is_label (label : string) : Prop := Forall caseless (js label).

(** The field a pattern gives: the number of its first match, or the
    field's previous value. *)
Definition updated (pattern : RegExp) (text : str) (old : number) : number :=
  match match_ text pattern with
  | Some m => parseInt_capture m
  | None => old
  end.

(** At position [k] the text holds the label, then separators, then a
    number. *)
Definition labelled_number_at (label : string) (text : str) (k : nat)
    : Prop :=
  exists pre seps digits post,
    text = pre ++ js label ++ seps ++ digits ++ post
    /\ length pre = k
    /\ all is_separator seps
    /\ digits <> [] /\ all is_digit digits.

Definition has_labelled_number (label : string) (text : str) : Prop :=
  exists k, labelled_number_at label text k.

(** The payload the injected script sends: [{ score: text }]. *)
Definition score_payload (text : str) : jsval :=
  VObj [(js "score", VStr text)].

(** The status text the parser reads from a payload; [None] when the
    payload has none ([data] or [data.score] missing or falsy, or a score
    that has no callable [toString]). *)
Definition score_text (payload : jsval) : option str :=
  if ToBoolean (GetOptional payload "score") then
    match call_toString (GetOptional payload "score") with
    | Normal text => Some text
    | TypeError => None
    end
  else None.

(** The Number value of a non-negative integer: the integer itself up to
    [2^53], the nearest binary64 value beyond, [Infinity] from about
    [1.8e308] on. *)
Definition is_count (x : number) : Prop :=
  exists z : Z, (0 <= z)%Z /\ x = of_Z z.

(** A binary64 value that is a non-negative integer, or [+Infinity]. *)
Definition natural_or_infinity (x : number) : bool :=
  match x with
  | S754_zero false | S754_infinity false => true
  | S754_finite false m e =>
      (0 <=? e)%Z || (Zpos m mod 2 ^ (- e) =? 0)%Z
  | _ => false
  end.

(** The score after a sequence of score updates, from the initial state. *)
Definition run (payloads : list jsval) : ScoreState :=
  fold_left parse payloads initialScore.

(** A run of digits does not go on into [rest]. *)
Definition ends_number (rest : str) : Prop :=
  forall d t, rest = d :: t -> is_digit d = false.

(** The leftmost labelled number of [text] has the digits [digits]. *)
Definition first_labelled_number (label : string) (text digits : str)
    : Prop :=
  exists pre seps post,
    text = pre ++ js label ++ seps ++ digits ++ post
    /\ all is_separator seps
    /\ digits <> [] /\ all is_digit digits /\ ends_number post
    /\ forall j, j < length pre -> ~ labelled_number_at label text j.

(** The data model's words: [correct] and [wrong] are non-negative
    integers and [progress] is an integer from 0 to 10. *)
Definition integer_between (lo hi : Z) (x : number) : bool :=
  existsb (fun z => SFeqb x (of_Z z))
    (map (fun n => (lo + Z.of_nat n)%Z) (seq 0 (S (Z.to_nat (hi - lo))))).

Definition progress_in_range (s : ScoreState) : bool :=
  integer_between 0 10 (progress s).

End ScoreVocabulary.
Import ScoreVocabulary.

Module HandlerVocabulary.

(** A status message whose score is an object with a property named
    [toString]: [{ type: 'game-status', status: 'score-update',
    data: { score: { toString: 1 } } }]. *)
Definition shadowed_toString : jsval :=
  VObj [(js "type", VStr (js "game-status"));
        (js "status", VStr (js "score-update"));
        (js "data",
         VObj [(js "score", VObj [(js "toString", VNum (of_Z 1))])])].

(** The score of a payload is an object with an own [toString]. *)
Definition unreadable_score (payload : jsval) : Prop :=
  exists props v,
    GetOptional payload "score" = VObj props
    /\ own props (js "toString") = Some v.

End HandlerVocabulary.
Import HandlerVocabulary.

Module LayoutVocabulary.






End LayoutVocabulary.
Import LayoutVocabulary.

Module Samples.

(** Inputs on which the theorems are tried. *)
Definition full_document : str :=
  js "<html><head><title>t</title></head><body><p>x</p></body></html>".

Definition headless_document : str := js "<body><p>x</p></body>".

Definition fragment : str := js "<p>x</p>".

Definition distance_game : str :=
  js "<script>if (Math.abs(a.x - b.x) < 30) hit();</script>".

Definition two_counts : str := js "正确:3 正确:7".

Definition some_score : ScoreState := mkScore (of_Z 1) (of_Z 2) (of_Z 3).

Definition alert_message : jsval :=
  VObj [(js "type", VStr (js "game-alert")); (js "message", VStr (js "hi"))].

End Samples.
Import Samples.
(* ================================================================== *)
(** * What the other rules of the analyzer look for *)
(* ================================================================== *)

Module RuleConditions.

(** Rule 1, the mention: one of the phrases 左右按钮, 点击左右 and 按下左右,
    or the word left or right followed by the word button, in any letter
    case, with optional white space between the two. *)
Definition mentions_buttons (html : str) : Prop :=
  (exists phrase,
     In phrase [js "左右按钮"; js "点击左右"; js "按下左右"]
     /\ occurs phrase html)
  \/ (exists side a ws b,
        In side [js "left"; js "right"]
        /\ spells true side a /\ all is_space ws
        /\ spells true (js "button") b
        /\ occurs (a ++ ws ++ b) html).

(** Rule 1, the markup: an opening tag [<button ...>], in any letter case,
    whose text holds 左 or 右 before the next tag opens. *)
Definition direction_button (html : str) : Prop :=
  exists tag attributes label side,
    spells true (js "<button") tag
    /\ without (chr ">") attributes
    /\ without (chr "<") label
    /\ In side [js "左"; js "右"]
    /\ occurs (tag ++ attributes ++ js ">" ++ label ++ side) html.

(** Rule 2: one of the key names, spelled exactly so. *)
Definition names_arrow_keys (html : str) : Prop :=
  occurs (js "ArrowLeft") html \/ occurs (js "ArrowRight") html.

(** Rule 4: [display: flex] or [overflow: hidden], with optional white
    space around the colon. *)
Definition layout_declaration (decl : str) : Prop :=
  exists property ws1 ws2 value,
    decl = property ++ ws1 ++ js ":" ++ ws2 ++ value
    /\ all is_space ws1 /\ all is_space ws2
    /\ ((spells true (js "display") property
         /\ spells true (js "flex") value)
        \/ (spells true (js "overflow") property
            /\ spells true (js "hidden") value)).

(** Rule 4: the text [body], an opening brace, and such a declaration
    before the block closes. *)
Definition body_layout (html : str) : Prop :=
  exists selector ws block decl,
    spells true (js "body") selector /\ all is_space ws
    /\ without (chr "}") block /\ layout_declaration decl
    /\ occurs (selector ++ ws ++ js "{" ++ block ++ decl) html.

(** Rule 5: the attribute text [class="game-area"] or
    [id="game-container"], in any letter case. *)
Definition game_area_attribute (html : str) : Prop :=
  occurs_ci (js ("class=" ++ dquote ++ "game-area" ++ dquote)) html
  \/ occurs_ci (js ("id=" ++ dquote ++ "game-container" ++ dquote)) html.

(** Markup on which the rules are tried. *)
Definition nested_label : str :=
  js "<p>点击左右按钮</p><button><b>左</b></button>".

Definition multi_class : str :=
  js ("<div class=" ++ dquote ++ "game-area main" ++ dquote ++ "></div>").

End RuleConditions.
Import RuleConditions.
(* ================================================================== *)
(** * The messages of the injected script *)
(* ================================================================== *)

Module Bridge.

(** What the injected script hands to [window.parent.postMessage].  The
    arguments range over the values that [postMessage] can clone. *)

(** [window.alert = function(msg) { ... }] *)
Definition alert (msg : jsval) : jsval :=
  VObj [(js "type", VStr (js "game-alert")); (js "message", msg)].


(** [sendGameStatus(status, data)] *)
Definition sendGameStatus (status data : jsval) : jsval :=
  VObj [(js "type", VStr (js "game-status"));
        (js "status", status);
        (js "data", data)].


End Bridge.

(* ================================================================== *)
(** * The component: state, effects and listeners *)
(* ================================================================== *)

Module Component.

(** ['loading' | 'ready' | 'error' | 'empty'] *)
Inductive Status : Type := Loading | Ready | Error | Empty.

(** The iframe element, as far as the component writes it.  The [onload]
    handler is a closure of the render whose effect assigned it: it is
    known by the [gameScore] of that render, which is what the listener it
    installs goes on reading. *)
Record Iframe : Type :=
  mkIframe { srcdoc : option str; onload : option ScoreState }.

(** The prop [gameData] (of which [html] is read: a string, or nothing),
    the state variables, the iframe the component renders and the
    [message] listeners it has put on the window, oldest first, each with
    the [gameScore] its closure holds. *)
Record State : Type :=
  mkState {
    gameData_html : option str;
    isLoading : bool;
    gameStatus : Status;
    gameScore : ScoreState;
    suggestions : list Suggestion;
    iframe : option Iframe;
    listeners : list ScoreState }.

(** [gameData?.html] as a condition: a non-empty string. *)
Definition has_game (html : option str) : bool :=
  match html with
  | Some (_ :: _) => true
  | _ => false
  end.

(** [{gameData?.html && (<iframe ref={iframeRef} ... />)}]: the element
    is kept from one render to the next, and gone without a game. *)
Definition render_iframe (html : option str) (old : option Iframe)
    : option Iframe :=
  if has_game html then
    Some match old with
         | Some f => f
         | None => mkIframe None None
         end
  else None.

(** The effect on [gameData]. *)
Definition load_effect (st : State) : State :=
  match gameData_html st with
  | Some (c :: s) =>
      let enhancedHtml := injectGameEnhancements (c :: s) in
      mkState (gameData_html st) true Loading (gameScore st)
        (analyzeGameHtml (c :: s))
        match iframe st with
        | Some _ => Some (mkIframe (Some enhancedHtml) (Some (gameScore st)))
        | None => None
        end
        (listeners st)
  | _ =>
      mkState (gameData_html st) (isLoading st) Empty (gameScore st)
        (suggestions st) (iframe st) (listeners st)
  end.

(** The [onload] handler of the effect; [setupMessageChannel] adds a
    listener, and what it returns is dropped. *)
Definition iframe_onload (st : State) : State :=
  match iframe st with
  | Some f =>
      match onload f with
      | Some snapshot =>
          mkState (gameData_html st) false Ready (gameScore st)
            (suggestions st) (iframe st) (listeners st ++ [snapshot])
      | None => st
      end
  | None => st
  end.

(** [handleRefresh] *)
Definition handleRefresh (st : State) : State :=
  match iframe st, gameData_html st with
  | Some f, Some (c :: s) =>
      let enhancedHtml := injectGameEnhancements (c :: s) in
      mkState (gameData_html st) true (gameStatus st) (gameScore st)
        (suggestions st) (Some (mkIframe (Some enhancedHtml) (onload f)))
        (listeners st)
  | _, _ => st
  end.

(** One listener on one message: what it asks for; an error it throws
    ends that listener only. *)
Definition listener (snapshot : ScoreState) (data : jsval) : list effect :=
  match handleMessage snapshot data with
  | Normal effects => effects
  | TypeError => []
  end.

(** A [message] event on the window: every listener runs, oldest first. *)
Definition dispatch (st : State) (data : jsval) : list effect :=
  flat_map (fun snapshot => listener snapshot data) (listeners st).

(** The calls of [message.info] and [message.warning] among them. *)
Definition toasts (st : State) (data : jsval) : list effect :=
  filter (fun e => match e with
                   | setGameScore _ => false
                   | _ => true
                   end)
    (dispatch st data).

Definition window_message (st : State) (data : jsval) : State :=
  mkState (gameData_html st) (isLoading st) (gameStatus st)
    (fold_left apply_effect (dispatch st data) (gameScore st))
    (suggestions st) (iframe st) (listeners st).

Inductive Event : Type :=
  | GameData (html : option str)
  | IframeLoad
  | Refresh
  | Message (data : jsval).

Definition step (st : State) (e : Event) : State :=
  match e with
  | GameData html =>
      load_effect
        (mkState html (isLoading st) (gameStatus st) (gameScore st)
           (suggestions st) (render_iframe html (iframe st)) (listeners st))
  | IframeLoad => iframe_onload st
  | Refresh => handleRefresh st
  | Message data => window_message st data
  end.

(** The first render, with the initial values of [useState]. *)
Definition mount (html : option str) : State :=
  step (mkState None false Empty initialScore [] None []) (GameData html).

Definition steps (st : State) (events : list Event) : State :=
  fold_left step events st.

(** A game is shown, loaded, and refreshed [k] times. *)
Definition refreshed (html : str) (k : nat) : State :=
  steps (mount (Some html))
    (IframeLoad :: concat (repeat [Refresh; IframeLoad] k)).

End Component.

Module Invariants.

Import Component.

(** The status and the content follow the game.  Without a game the
    status is [Empty] and there is no iframe; with a game the status is
    [Loading] or [Ready], the suggestions are those of its markup, and the
    iframe holds its enhanced markup and a load handler. *)
Definition consistent (st : State) : Prop :=
  In (gameStatus st) [Loading; Ready; Empty]
  /\ (gameStatus st = Empty <-> has_game (gameData_html st) = false)
  /\ match gameData_html st with
     | Some (c :: s) =>
         suggestions st = analyzeGameHtml (c :: s)
         /\ exists snapshot,
              iframe st
              = Some (mkIframe (Some (injectGameEnhancements (c :: s)))
                        (Some snapshot))
     | _ => iframe st = None
     end.

Definition counts (s : ScoreState) : Prop :=
  is_count (correct s) /\ is_count (wrong s) /\ is_count (progress s).

(** The score, and every score a closure holds, is made of counts. *)
Definition all_counts (st : State) : Prop :=
  counts (gameScore st)
  /\ Forall counts (listeners st)
  /\ (forall f snapshot,
        iframe st = Some f -> onload f = Some snapshot -> counts snapshot).

End Invariants.

Module ScoreMessages.

(** The score update the injected script posts for a status text. *)
Definition status_message (text : str) : jsval :=
  Bridge.sendGameStatus (VStr (js "score-update")) (score_payload text).

(** Two updates of one field each. *)
Definition correct_then_wrong : list jsval :=
  [status_message (js "正确:3"); status_message (js "错误:1")].

End ScoreMessages.
(* ================================================================== *)
(** * The rest of the injected layout code *)
(* ================================================================== *)

Module Fit.








End Fit.

Module RootPicker.










End RootPicker.

Module Ordering.

Local Open Scope Z_scope.

(** The place of a Number that is not [NaN] in the order of the numbers:
    its class and sign, then its exponent, then its mantissa. *)
Definition rank (x : number) : Z * Z * Z :=
  match x with
  | S754_infinity true => (-2, 0, 0)
  | S754_finite true m e => (-1, - e, Zneg m)
  | S754_zero _ | S754_nan => (0, 0, 0)
  | S754_finite false m e => (1, e, Zpos m)
  | S754_infinity false => (2, 0, 0)
  end.

Definition lex (a b : Z * Z * Z) : comparison :=
  match fst (fst a) ?= fst (fst b) with
  | Eq =>
      match snd (fst a) ?= snd (fst b) with
      | Eq => snd a ?= snd b
      | c => c
      end
  | c => c
  end.


End Ordering.

Module LayoutSamples.




End LayoutSamples.

Module PickerInvariant.

Import RootPicker.


End PickerInvariant.

(* ================================================================== *)
(** * Facts about strings *)
(* ================================================================== *)

Module StringFacts.

Lemma cu_eqb_eq (a b : cu) : cu_eqb a b = true <-> a = b.
Proof. unfold cu_eqb. apply N.eqb_eq. Qed.

Lemma cu_eqb_refl (a : cu) : cu_eqb a a = true.
Proof. apply cu_eqb_eq. reflexivity. Qed.

Lemma cu_eqb_neq (a b : cu) : cu_eqb a b = false <-> a <> b.
Proof. unfold cu_eqb. apply N.eqb_neq. Qed.

Lemma str_eqb_eq (a b : str) : str_eqb a b = true <-> a = b.
Proof.
  revert b. induction a as [|x a IH]; intros [|y b]; simpl;
    try (split; [discriminate | discriminate]); [tauto|].
  destruct (cu_eqb x y) eqn:E.
  - apply cu_eqb_eq in E. subst y. rewrite IH.
    split; [intros ->; reflexivity | intros H; inversion H; auto].
  - apply cu_eqb_neq in E.
    split; [discriminate | intros H; inversion H; contradiction].
Qed.

Lemma startsWith_spec (s p : str) :
  startsWith s p = true <-> exists t, s = p ++ t.
Proof.
  revert s. induction p as [|a p IH]; intros s; simpl.
  - split; [intros _; exists s; reflexivity | reflexivity].
  - destruct s as [|b s].
    + split; [discriminate | intros [t H]; discriminate].
    + destruct (cu_eqb a b) eqn:E.
      * apply cu_eqb_eq in E. subst b. rewrite IH. split.
        -- intros [t ->]. exists t. reflexivity.
        -- intros [t H]. inversion H. exists t. reflexivity.
      * apply cu_eqb_neq in E.
        split; [discriminate | intros [t H]; inversion H; congruence].
Qed.

Lemma startsWith_app (p t : str) : startsWith (p ++ t) p = true.
Proof. apply startsWith_spec. exists t. reflexivity. Qed.

Lemma occurs_at_0 (p s : str) : occurs_at p s 0 <-> startsWith s p = true.
Proof.
  rewrite startsWith_spec. split.
  - intros (pre & post & -> & Hl). destruct pre; [|discriminate].
    exists post. reflexivity.
  - intros [t ->]. exists [], t. split; reflexivity.
Qed.

Lemma occurs_at_S (p : str) (x : cu) (s : str) (n : nat) :
  occurs_at p (x :: s) (S n) <-> occurs_at p s n.
Proof.
  split.
  - intros (pre & post & H & Hl). destruct pre as [|y pre]; [discriminate|].
    simpl in H, Hl. inversion H; subst. exists pre, post. split; congruence.
  - intros (pre & post & -> & Hl). exists (x :: pre), post.
    split; simpl; congruence.
Qed.

Lemma occurs_at_nil_S (p : str) (n : nat) : ~ occurs_at p [] (S n).
Proof.
  intros (pre & post & H & Hl). destruct pre; discriminate.
Qed.

Lemma indexOf_Some (s p : str) (n : nat) :
  indexOf s p = Some n ->
  occurs_at p s n /\ forall m, occurs_at p s m -> n <= m.
Proof.
  revert n. induction s as [|x s IH]; intros n; simpl.
  - destruct (startsWith [] p) eqn:E; [|discriminate].
    intros H; injection H as <-. split; [apply occurs_at_0; exact E | lia].
  - destruct (startsWith (x :: s) p) eqn:E.
    + intros H; injection H as <-.
      split; [apply occurs_at_0; exact E | lia].
    + destruct (indexOf s p) as [k|] eqn:Ek; [|discriminate].
      simpl. intros H; injection H as <-.
      destruct (IH k eq_refl) as [Ho Hmin]. split.
      * apply occurs_at_S. exact Ho.
      * intros [|m] Hm.
        -- apply occurs_at_0 in Hm. congruence.
        -- apply occurs_at_S in Hm. apply Hmin in Hm. lia.
Qed.

Lemma indexOf_None (s p : str) :
  indexOf s p = None -> forall m, ~ occurs_at p s m.
Proof.
  induction s as [|x s IH]; simpl.
  - destruct (startsWith [] p) eqn:E; [discriminate|].
    intros _ [|m] Hm.
    + apply occurs_at_0 in Hm. congruence.
    + exact (occurs_at_nil_S _ _ Hm).
  - destruct (startsWith (x :: s) p) eqn:E; [discriminate|].
    destruct (indexOf s p) eqn:Ek; [discriminate|].
    intros _ [|m] Hm.
    + apply occurs_at_0 in Hm. congruence.
    + apply occurs_at_S in Hm. exact (IH eq_refl m Hm).
Qed.

Lemma occurs_iff_at (p s : str) : occurs p s <-> exists n, occurs_at p s n.
Proof.
  split.
  - intros (pre & post & ->). exists (length pre), pre, post. auto.
  - intros (n & pre & post & -> & _). exists pre, post. reflexivity.
Qed.

Lemma includes_spec (s p : str) : includes s p = true <-> occurs p s.
Proof.
  unfold includes. rewrite occurs_iff_at.
  destruct (indexOf s p) as [n|] eqn:E.
  - split; [intros _|reflexivity]. exists n. apply (indexOf_Some _ _ _ E).
  - split; [discriminate|]. intros [n Hn].
    exfalso. exact (indexOf_None _ _ E n Hn).
Qed.

Lemma includes_false (s p : str) : includes s p = false <-> ~ occurs p s.
Proof.
  rewrite <- includes_spec. destruct (includes s p); split; congruence.
Qed.

(** A template without [$] stands for itself. *)
Lemma GetSubstitution_plain (matched before after templ : str) :
  ~ In dollar templ ->
  GetSubstitution matched before after templ = templ.
Proof.
  induction templ as [|c t IH]; simpl; intros H; [reflexivity|].
  destruct (cu_eqb c dollar) eqn:E.
  - apply cu_eqb_eq in E. exfalso. apply H. left. auto.
  - f_equal. apply IH. intros Hin. apply H. right. exact Hin.
Qed.

Lemma firstn_prefix (pre rest : str) :
  firstn (length pre) (pre ++ rest) = pre.
Proof. induction pre; simpl; congruence. Qed.

Lemma skipn_prefix (pre p post : str) :
  skipn (length pre + length p) (pre ++ p ++ post) = post.
Proof.
  induction pre; simpl; [|assumption].
  induction p; simpl; congruence.
Qed.

Lemma replace_first (s p templ : str) (n : nat) :
  indexOf s p = Some n ->
  ~ In dollar templ ->
  exists pre post,
    first_split p s pre post /\ replace s p templ = pre ++ templ ++ post.
Proof.
  intros E Hd. unfold replace. rewrite E.
  destruct (indexOf_Some _ _ _ E) as [(pre & post & Hs & Hl) Hmin].
  exists pre, post. split.
  - split; [exact Hs|]. intros m Hm. rewrite Hl. apply Hmin, Hm.
  - rewrite GetSubstitution_plain by exact Hd.
    subst s. rewrite <- Hl.
    rewrite firstn_prefix, skipn_prefix. reflexivity.
Qed.

Lemma replace_absent (s p templ : str) :
  indexOf s p = None -> replace s p templ = s.
Proof. intros E. unfold replace. rewrite E. reflexivity. Qed.

End StringFacts.
Import StringFacts.

(* ================================================================== *)
(** * Counting occurrences *)
(* ================================================================== *)

Module OccurrenceFacts.

Lemma occurs_at_occurs (w s : str) (n : nat) : occurs_at w s n -> occurs w s.
Proof. intros H. apply occurs_iff_at. exists n. exact H. Qed.

(** An occurrence in [p ++ q] lies in [p], or in [q], or across the two. *)
Lemma occurs_at_app (w p q : str) (m : nat) :
  occurs_at w (p ++ q) m ->
  occurs_at w p m
  \/ (length p <= m /\ occurs_at w q (m - length p))
  \/ (exists u v, w = u ++ v /\ u <> [] /\ v <> []
                  /\ (exists p', p = p' ++ u) /\ (exists q', q = v ++ q')).
Proof.
  intros (pre & post & H & Hl).
  apply app_eq_app in H. destruct H as [l [[Hp Hq] | [Hp Hq]]].
  - apply app_eq_app in Hq. destruct Hq as [l' [[Hw Hq] | [Hw Hq]]].
    + destruct l as [|a l].
      * right; left. rewrite app_nil_r in Hp. subst p. simpl in Hw.
        subst l'. split; [lia|]. rewrite Hl, Nat.sub_diag.
        exists [], post. split; [exact Hq | reflexivity].
      * destruct l' as [|b l'].
        -- left. rewrite app_nil_r in Hw. subst w.
           exists pre, []. rewrite app_nil_r. split; assumption.
        -- right; right. exists (a :: l), (b :: l').
           repeat split; try discriminate; try assumption.
           ++ exists pre. exact Hp.
           ++ exists post. exact Hq.
    + left. subst l. exists pre, l'. split; assumption.
  - right; left. subst pre. rewrite length_app in Hl. split; [lia|].
    exists l, post. split; [exact Hq | lia].
Qed.

Lemma occurs_app_l (w p q : str) : occurs w p -> occurs w (p ++ q).
Proof.
  intros (a & b & ->). exists a, (b ++ q). rewrite <- !app_assoc. reflexivity.
Qed.


Lemma last_of_suffix (B' u Bi : str) (l : cu) :
  u <> [] -> B' ++ u = Bi ++ [l] -> exists u', u = u' ++ [l].
Proof.
  intros Hu H. destruct (exists_last Hu) as (u' & z & ->).
  rewrite app_assoc in H. apply app_inj_tail in H. destruct H as [_ ->].
  exists u'. reflexivity.
Qed.

Section Unique.

(** [B] starts with [b] and ends with [l]; the marker [w] holds neither
    and occurs in [B] at position [a0] only. *)
Variables (w B B1 B2 x y : str) (b l : cu) (a0 : nat).
Hypothesis B_first : B = b :: B1.
Hypothesis B_last : B = B2 ++ [l].
Hypothesis first_not_in : ~ In b w.
Hypothesis last_not_in : ~ In l w.
Hypothesis w_at : occurs_at w B a0.
Hypothesis w_once : forall m, occurs_at w B m -> m = a0.
Hypothesis w_not_before : ~ occurs w x.
Hypothesis w_not_after : ~ occurs w y.




End Unique.






End OccurrenceFacts.
Import OccurrenceFacts.

(* ================================================================== *)
(** * The enhancement injector *)
(* ================================================================== *)

Module InjectorFacts.

Lemma no_dollar (l : str) :
  forallb (fun c => negb (cu_eqb c dollar)) l = true -> ~ In dollar l.
Proof.
  intros H Hin. rewrite forallb_forall in H. specialize (H _ Hin).
  rewrite cu_eqb_refl in H. discriminate.
Qed.

(** Neither replacement template of [injectGameEnhancements] holds a [$]:
    both are inserted as they are. *)
Lemma head_template_plain : ~ In dollar (enhancements ++ js "</head>").
Proof. apply no_dollar. vm_compute. reflexivity. Qed.

Lemma body_template_plain :
  ~ In dollar (js "<head>" ++ enhancements ++ js "</head><body>").
Proof. apply no_dollar. vm_compute. reflexivity. Qed.

Lemma includes_indexOf (s p : str) :
  includes s p = true -> exists n, indexOf s p = Some n.
Proof.
  unfold includes. destruct (indexOf s p) as [n|]; [|discriminate].
  intros _. exists n. reflexivity.
Qed.

Lemma inject_head (html : str) :
  includes html (js "</head>") = true ->
  exists pre post,
    first_split (js "</head>") html pre post
    /\ injectGameEnhancements html
       = pre ++ enhancements ++ js "</head>" ++ post.
Proof.
  intros H. unfold injectGameEnhancements. rewrite H.
  destruct (includes_indexOf _ _ H) as [n E].
  destruct (replace_first _ _ _ _ E head_template_plain)
    as (pre & post & Hf & Hr).
  exists pre, post. split; [exact Hf|].
  rewrite Hr, <- app_assoc. reflexivity.
Qed.

Lemma inject_body (html : str) :
  includes html (js "</head>") = false ->
  includes html (js "<body>") = true ->
  exists pre post,
    first_split (js "<body>") html pre post
    /\ injectGameEnhancements html
       = pre ++ js "<head>" ++ enhancements ++ js "</head>"
             ++ js "<body>" ++ post.
Proof.
  intros H1 H2. unfold injectGameEnhancements. rewrite H1, H2.
  destruct (includes_indexOf _ _ H2) as [n E].
  destruct (replace_first _ _ _ _ E body_template_plain)
    as (pre & post & Hf & Hr).
  exists pre, post. split; [exact Hf|].
  rewrite Hr. rewrite <- !app_assoc. reflexivity.
Qed.

Lemma inject_prepend (html : str) :
  includes html (js "</head>") = false ->
  includes html (js "<body>") = false ->
  injectGameEnhancements html = enhancements ++ html.
Proof.
  intros H1 H2. unfold injectGameEnhancements. rewrite H1, H2. reflexivity.
Qed.

(** C1. The injector follows the three tiers: at the first [</head>] the
    bundle is inserted right before it; failing that, at the first [<body>]
    a head element holding the bundle is inserted right before it; failing
    both, the output is the bundle followed by the input.  In each case the
    text before and after the one insertion point is that of the input. *)
Theorem C1_three_tier_fallback (html : str) :
  (occurs (js "</head>") html ->
   exists pre post,
     first_split (js "</head>") html pre post
     /\ injectGameEnhancements html
        = pre ++ enhancements ++ js "</head>" ++ post)
  /\ (~ occurs (js "</head>") html ->
      occurs (js "<body>") html ->
      exists pre post,
        first_split (js "<body>") html pre post
        /\ injectGameEnhancements html
           = pre ++ js "<head>" ++ enhancements ++ js "</head>"
                 ++ js "<body>" ++ post)
  /\ (~ occurs (js "</head>") html ->
      ~ occurs (js "<body>") html ->
      injectGameEnhancements html = enhancements ++ html).
Proof.
  repeat split.
  - intros H. apply inject_head. apply includes_spec. exact H.
  - intros H1 H2. apply inject_body.
    + apply includes_false. exact H1.
    + apply includes_spec. exact H2.
  - intros H1 H2. apply inject_prepend; apply includes_false; assumption.
Qed.

End InjectorFacts.

Module ContentPreservation.

Lemma not_in (c : cu) (l : str) :
  forallb (fun x => negb (cu_eqb x c)) l = true -> ~ In c l.
Proof.
  intros H Hin. rewrite forallb_forall in H. specialize (H _ Hin).
  rewrite cu_eqb_refl in H. discriminate.
Qed.

(** No occurrence across [p ++ q] when the first character of [q] is not
    in [w]. *)
Lemma not_occurs_app_first (w p q q' : str) (c : cu) :
  q = c :: q' -> ~ In c w ->
  ~ occurs w p -> ~ occurs w q -> ~ occurs w (p ++ q).
Proof.
  intros Hq Hc Hp Hq' H. apply occurs_iff_at in H. destruct H as [m H].
  apply occurs_at_app in H.
  destruct H as [H | [[_ H] | (u & v & Hw & Hu & Hv & _ & [t Ht])]].
  - apply Hp. exact (occurs_at_occurs _ _ _ H).
  - apply Hq'. exact (occurs_at_occurs _ _ _ H).
  - rewrite Hq in Ht. destruct v as [|d v]; [congruence|].
    simpl in Ht. injection Ht as <- _.
    apply Hc. rewrite Hw. apply in_or_app. right. left. reflexivity.
Qed.

(** No occurrence across [p ++ q] when the last character of [p] is not
    in [w]. *)
Lemma not_occurs_app_last (w p p' q : str) (c : cu) :
  p = p' ++ [c] -> ~ In c w ->
  ~ occurs w p -> ~ occurs w q -> ~ occurs w (p ++ q).
Proof.
  intros Hp' Hc Hp Hq H. apply occurs_iff_at in H. destruct H as [m H].
  apply occurs_at_app in H.
  destruct H as [H | [[_ H] | (u & v & Hw & Hu & Hv & [t Ht] & _)]].
  - apply Hp. exact (occurs_at_occurs _ _ _ H).
  - apply Hq. exact (occurs_at_occurs _ _ _ H).
  - rewrite Hp' in Ht. symmetry in Ht.
    destruct (last_of_suffix _ _ _ _ Hu Ht) as [u' ->].
    apply Hc. rewrite Hw, <- app_assoc. apply in_or_app. right. left.
    reflexivity.
Qed.



Lemma bundle_first : enhancements = 10%N :: tl enhancements.
Proof. reflexivity. Qed.

Lemma bundle_last : enhancements = removelast enhancements ++ [32%N].
Proof. vm_compute. reflexivity. Qed.






Import InjectorFacts.



End ContentPreservation.

(* ================================================================== *)
(** * The matcher finds exactly the words of the pattern *)
(* ================================================================== *)

Module RegexFacts.

Lemma char_set_matcher_spec (P : cu -> bool) (L : str -> Prop) :
  (forall u, L u <-> exists x, u = [x] /\ P x = true) ->
  matcher_for (char_set_matcher P) L.
Proof.
  intros HL k K Hk s c. unfold char_set_matcher. split.
  - destruct s as [|x s']; [congruence|].
    destruct (P x) eqn:E; [|congruence].
    intros H. exists [x], s'. split; [reflexivity|]. split.
    + apply HL. exists x. auto.
    + apply (Hk s' c). exact H.
  - intros (u & v & -> & Hu & Hv). apply HL in Hu.
    destruct Hu as (x & -> & Hx). simpl. rewrite Hx. apply Hk. exact Hv.
Qed.

Lemma star_split (i : bool) (g : bool) (a : regex) (u : str) :
  lang i (Star g a) u ->
  u = [] \/ exists u1 u2,
              u = u1 ++ u2 /\ u1 <> [] /\ lang i a u1 /\ lang i (Star g a) u2.
Proof.
  intros H. remember (Star g a) as r eqn:Er.
  induction H; try discriminate.
  - left. reflexivity.
  - injection Er as -> ->. destruct u as [|x u].
    + simpl. apply IHlang2. reflexivity.
    + right. exists (x :: u), v. repeat split; auto. discriminate.
Qed.

Lemma option_or_not_none {A : Type} (x y : option A) :
  match x with Some r => Some r | None => y end <> None
  <-> x <> None \/ y <> None.
Proof.
  destruct x; split; try tauto; try congruence.
Qed.

Lemma repeat_matcher_spec (i g : bool) (a : regex) (ma : matcher) :
  matcher_for ma (lang i a) ->
  forall fuel k K, accepts k K ->
  forall s c, length s < fuel ->
    repeat_matcher ma g fuel k s c <> None
    <-> exists u v, s = u ++ v /\ lang i (Star g a) u /\ K v.
Proof.
  intros Hma fuel. induction fuel as [|fuel IH]; intros k K Hk s c Hlen;
    [lia|].
  set (kin := fun (s' : str) (c' : captures) =>
                if length s' <? length s
                then repeat_matcher ma g fuel k s' c' else None).
  set (Kin := fun s' : str =>
                length s' < length s
                /\ exists u v, s' = u ++ v /\ lang i (Star g a) u /\ K v).
  assert (Hkin : accepts kin Kin).
  { intros s' c'. unfold kin, Kin. destruct (Nat.ltb_spec (length s') (length s)).
    - rewrite (IH k K Hk s' c') by lia. tauto.
    - split; [congruence | lia]. }
  assert (Hagain := Hma kin Kin Hkin s c).
  assert (Hres : repeat_matcher ma g (S fuel) k s c <> None
                 <-> ma kin s c <> None \/ k s c <> None).
  { simpl. fold kin. destruct g.
    - apply option_or_not_none.
    - rewrite option_or_not_none. tauto. }
  rewrite Hres, Hagain. split.
  - intros [(u1 & v1 & -> & Hu1 & _ & u2 & v & -> & Hu2 & Hv) | H].
    + exists (u1 ++ u2), v. split; [rewrite app_assoc; reflexivity|].
      split; [constructor; assumption | exact Hv].
    + exists [], s. split; [reflexivity|].
      split; [constructor | apply (Hk s c); exact H].
  - intros (u & v & -> & Hu & Hv). apply star_split in Hu.
    destruct Hu as [-> | (u1 & u2 & -> & Hne & Hu1 & Hu2)].
    + right. apply Hk. exact Hv.
    + left. exists u1, (u2 ++ v). split; [rewrite app_assoc; reflexivity|].
      split; [exact Hu1|]. split.
      * rewrite !length_app. destruct u1; [congruence | simpl; lia].
      * exists u2, v. auto.
Qed.

(** The matcher compiled from [r] matches the words of [r]. *)
Theorem compile_spec (i : bool) (r : regex) :
  matcher_for (compile i r) (lang i r).
Proof.
  induction r as [ | p | | | | negated items | a IHa b IHb | a IHa b IHb
                 | g a IHa | a IHa | n a IHa ]; cbn [compile].
  - intros k K Hk s c. rewrite (Hk s c). split.
    + intros H. exists [], s. repeat split; [constructor | exact H].
    + intros (u & v & -> & Hu & Hv). inversion Hu; subst. exact Hv.
  - apply char_set_matcher_spec. intros u. split.
    + intros H. inversion H; subst. eauto.
    + intros (x & -> & Hx). constructor. exact Hx.
  - apply char_set_matcher_spec. intros u. split.
    + intros H. inversion H; subst. exists c. split; [reflexivity|].
      destruct (is_line_terminator c); [discriminate | reflexivity].
    + intros (x & -> & Hx). constructor.
      destruct (is_line_terminator x); [discriminate | reflexivity].
  - apply char_set_matcher_spec. intros u. split.
    + intros H. inversion H; subst. eauto.
    + intros (x & -> & Hx). constructor. exact Hx.
  - apply char_set_matcher_spec. intros u. split.
    + intros H. inversion H; subst. eauto.
    + intros (x & -> & Hx). constructor. exact Hx.
  - apply char_set_matcher_spec. intros u. split.
    + intros H. inversion H; subst. eauto.
    + intros (x & -> & Hx). constructor. exact Hx.
  - intros k K Hk s c.
    rewrite (IHa (compile i b k)
               (fun s' => exists u v, s' = u ++ v /\ lang i b u /\ K v)).
    + split.
      * intros (u1 & v1 & -> & Hu1 & u2 & v & -> & Hu2 & Hv).
        exists (u1 ++ u2), v. split; [rewrite app_assoc; reflexivity|].
        split; [constructor; assumption | exact Hv].
      * intros (u & v & -> & Hu & Hv). inversion Hu; subst.
        exists u0, (v0 ++ v). split; [rewrite app_assoc; reflexivity|].
        split; [assumption|]. exists v0, v. auto.
    + intros s' c'. apply IHb. exact Hk.
  - intros k K Hk s c. rewrite option_or_not_none.
    rewrite (IHa k K Hk), (IHb k K Hk). split.
    + intros [(u & v & -> & Hu & Hv) | (u & v & -> & Hu & Hv)];
        exists u, v; (split; [reflexivity|]); split; auto.
      * apply lang_alt_l. exact Hu.
      * apply lang_alt_r. exact Hu.
    + intros (u & v & -> & Hu & Hv). inversion Hu; subst;
        [left | right]; exists u, v; auto.
  - intros k K Hk s c.
    apply (repeat_matcher_spec i g a (compile i a) IHa); [exact Hk | lia].
  - intros k K Hk s c.
    rewrite (IHa (fun s' c' =>
                    repeat_matcher (compile i a) true (S (length s')) k s' c')
               (fun s' => exists u v,
                            s' = u ++ v /\ lang i (Star true a) u /\ K v)).
    + split.
      * intros (u1 & v1 & -> & Hu1 & u2 & v & -> & Hu2 & Hv).
        exists (u1 ++ u2), v. split; [rewrite app_assoc; reflexivity|].
        split; [constructor; assumption | exact Hv].
      * intros (u & v & -> & Hu & Hv). inversion Hu; subst.
        exists u0, (v0 ++ v). split; [rewrite app_assoc; reflexivity|].
        split; [assumption|]. exists v0, v. auto.
    + intros s' c'.
      apply (repeat_matcher_spec i true a (compile i a) IHa); [exact Hk | lia].
  - intros k K Hk s c.
    rewrite (IHa (fun s' c' =>
                    k s' ((n, firstn (length s - length s') s) :: c')) K).
    + split.
      * intros (u & v & -> & Hu & Hv). exists u, v.
        split; [reflexivity|]. split; [constructor; exact Hu | exact Hv].
      * intros (u & v & -> & Hu & Hv). inversion Hu; subst.
        exists u, v. auto.
    + intros s' c'. apply Hk.
Qed.

Lemma match_here_spec (re : RegExp) (s : str) :
  match_here re s <> None
  <-> exists w post, s = w ++ post /\ lang (ignoreCase re) (source re) w.
Proof.
  unfold match_here.
  rewrite (compile_spec (ignoreCase re) (source re)
             (fun s' c' => Some (s', c')) (fun _ => True)).
  - split.
    + intros (u & v & H & Hu & _). exists u, v. auto.
    + intros (u & v & H & Hu). exists u, v. auto.
  - intros s' c'. split; [auto | discriminate].
Qed.

Lemma exec_spec (re : RegExp) (s : str) :
  exec re s <> None <-> matches_somewhere re s.
Proof.
  unfold matches_somewhere. induction s as [|x s IH]; simpl.
  - rewrite option_or_not_none, match_here_spec. split.
    + intros [(w & post & H & Hw) | H]; [|congruence].
      exists [], w, post. auto.
    + intros (pre & w & post & H & Hw). left.
      destruct pre; [|discriminate]. exists w, post. auto.
  - rewrite option_or_not_none, match_here_spec, IH. split.
    + intros [(w & post & H & Hw) | (pre & w & post & -> & Hw)].
      * exists [], w, post. auto.
      * exists (x :: pre), w, post. auto.
    + intros (pre & w & post & H & Hw). destruct pre as [|y pre].
      * left. exists w, post. auto.
      * right. simpl in H. injection H as -> ->. exists pre, w, post. auto.
Qed.

(** [test] answers whether some part of the text is a word of the
    pattern. *)
Theorem test_spec (re : RegExp) (s : str) :
  test re s = true <-> matches_somewhere re s.
Proof.
  rewrite <- exec_spec. unfold test.
  destruct (exec re s); split; congruence.
Qed.

Lemma test_false (re : RegExp) (s : str) :
  test re s = false <-> ~ matches_somewhere re s.
Proof.
  rewrite <- test_spec. destruct (test re s); split; congruence.
Qed.

End RegexFacts.
Import RegexFacts.

(* ================================================================== *)
(** * The words of the program's patterns *)
(* ================================================================== *)

Module PatternFacts.

Lemma in_range_spec (lo hi c : cu) :
  in_range lo hi c = true <-> (lo <= c /\ c <= hi)%N.
Proof.
  unfold in_range. rewrite andb_true_iff, !N.leb_le. tauto.
Qed.

Lemma char_match_caseless (i : bool) (p c : cu) :
  caseless p -> (char_match i p c = true <-> c = p).
Proof.
  intros [Hu Hl]. unfold char_match. destruct i.
  - unfold canonicalize. rewrite cu_eqb_eq.
    destruct (in_range 97 122 p) eqn:Ep.
    { apply in_range_spec in Ep. lia. }
    destruct (in_range 97 122 c) eqn:Ec.
    + apply in_range_spec in Ec. split; intros H; lia.
    + split; congruence.
  - rewrite cu_eqb_eq. split; congruence.
Qed.

Lemma char_match_sensitive (p c : cu) : char_match false p c = true <-> c = p.
Proof. unfold char_match. rewrite cu_eqb_eq. split; congruence. Qed.

Lemma spells_sensitive (p w : str) : spells false p w <-> w = p.
Proof.
  unfold spells. split.
  - intros H. induction H as [|a b p w Hab _ IH]; [reflexivity|].
    apply char_match_sensitive in Hab. congruence.
  - intros ->. induction p as [|a p IH]; constructor; [|exact IH].
    apply char_match_sensitive. reflexivity.
Qed.

Lemma spells_caseless (i : bool) (p w : str) :
  Forall caseless p -> (spells i p w <-> w = p).
Proof.
  intros Hp. unfold spells. split.
  - intros H. induction H as [|a b p w Hab _ IH]; [reflexivity|].
    inversion Hp; subst. apply char_match_caseless in Hab; [|assumption].
    rewrite IH by assumption. congruence.
  - intros ->. induction Hp as [|a p Ha _ IH]; constructor; [|exact IH].
    apply char_match_caseless; [exact Ha | reflexivity].
Qed.

Lemma spells_length (i : bool) (p w : str) :
  spells i p w -> length w = length p.
Proof. intros H. symmetry. exact (Forall2_length H). Qed.

(** ** Literals, sequences, alternatives, groups *)

Lemma lang_lit_list (i : bool) (l w : str) :
  lang i (fold_right (fun c r => Seq (Chr c) r) Eps l) w <-> spells i l w.
Proof.
  revert w. induction l as [|a l IH]; intros w; simpl.
  - split; intros H; inversion H; constructor.
  - split.
    + intros H. inversion H as [ | | | | | | ? ? u v Hu Hv | | | | | | ]; subst.
      inversion Hu; subst. simpl. constructor; [assumption|].
      apply IH. exact Hv.
    + intros H. inversion H as [|? b ? w' Hab Hw]; subst.
      apply (lang_seq i (Chr a) _ [b] w').
      * constructor. exact Hab.
      * apply IH. exact Hw.
Qed.

Lemma lang_lit (i : bool) (s : string) (w : str) :
  lang i (lit s) w <-> spells i (js s) w.
Proof. apply lang_lit_list. Qed.

Lemma lang_seq_iff (i : bool) (a b : regex) (w : str) :
  lang i (Seq a b) w <-> exists u v, w = u ++ v /\ lang i a u /\ lang i b v.
Proof.
  split.
  - intros H. inversion H; subst. eauto.
  - intros (u & v & -> & Hu & Hv). constructor; assumption.
Qed.

Lemma lang_alt_iff (i : bool) (a b : regex) (w : str) :
  lang i (Alt a b) w <-> lang i a w \/ lang i b w.
Proof.
  split.
  - intros H. inversion H; subst; auto.
  - intros [H|H]; [apply lang_alt_l | apply lang_alt_r]; exact H.
Qed.

Lemma lang_group_iff (i : bool) (n : nat) (a : regex) (w : str) :
  lang i (Group n a) w <-> lang i a w.
Proof.
  split.
  - intros H. inversion H; subst. assumption.
  - intros H. constructor. exact H.
Qed.

(** ** Runs of one kind of character *)

Lemma lang_star_atom (i g : bool) (a : regex) (P : cu -> bool) (u : str) :
  atom_of i a P -> (lang i (Star g a) u <-> all P u).
Proof.
  intros Ha. split.
  - intros H. remember (Star g a) as r eqn:Er.
    induction H; try discriminate.
    + constructor.
    + injection Er as -> ->. apply Ha in H. destruct H as (c & -> & Hc).
      simpl. constructor; [exact Hc|]. apply IHlang2. reflexivity.
  - intros H. induction H as [|c u Hc _ IH].
    + constructor.
    + apply (lang_star_cons i g a [c] u); [|exact IH].
      apply Ha. eauto.
Qed.

Lemma lang_plus_atom (i : bool) (a : regex) (P : cu -> bool) (u : str) :
  atom_of i a P -> (lang i (Plus a) u <-> u <> [] /\ all P u).
Proof.
  intros Ha. split.
  - intros H. inversion H as [ | | | | | | | | | | | ? u1 u2 H1 H2 | ]; subst.
    apply Ha in H1. destruct H1 as (c & -> & Hc).
    apply (lang_star_atom i true a P u2 Ha) in H2.
    split; [discriminate | constructor; assumption].
  - intros [Hne H]. destruct H as [|c u Hc Hu]; [congruence|].
    apply (lang_plus i a [c] u).
    + apply Ha. eauto.
    + apply (lang_star_atom i true a P u Ha). exact Hu.
Qed.

Lemma atom_space (i : bool) : atom_of i Space is_space.
Proof.
  intros u. split.
  - intros H. inversion H; subst. eauto.
  - intros (c & -> & Hc). constructor. exact Hc.
Qed.

Lemma atom_digit (i : bool) : atom_of i Digit is_digit.
Proof.
  intros u. split.
  - intros H. inversion H; subst. eauto.
  - intros (c & -> & Hc). constructor. exact Hc.
Qed.

Lemma atom_dot (i : bool) :
  atom_of i Dot (fun c => negb (is_line_terminator c)).
Proof.
  intros u. split.
  - intros H. inversion H; subst. exists c. split; [reflexivity|].
    destruct (is_line_terminator c); [discriminate | reflexivity].
  - intros (c & -> & Hc). constructor.
    destruct (is_line_terminator c); [discriminate | reflexivity].
Qed.

Lemma atom_class (i negated : bool) (items : list class_item) :
  atom_of i (Class negated items) (class_match i negated items).
Proof.
  intros u. split.
  - intros H. inversion H; subst. eauto.
  - intros (c & -> & Hc). constructor. exact Hc.
Qed.

(** [[^x]] for a character [x] that is not a letter. *)
Lemma class_not_char (i : bool) (x c : cu) :
  caseless x ->
  class_match i true [CChar x] c = negb (cu_eqb c x).
Proof.
  intros Hx. unfold class_match. simpl. rewrite orb_false_r.
  destruct (char_match i x c) eqn:E.
  - apply char_match_caseless in E; [|exact Hx]. subst.
    rewrite cu_eqb_refl. reflexivity.
  - destruct (cu_eqb c x) eqn:E'; [|reflexivity].
    apply cu_eqb_eq in E'. subst.
    assert (H : char_match i x x = true)
      by (apply char_match_caseless; [exact Hx | reflexivity]).
    congruence.
Qed.

End PatternFacts.
Import PatternFacts.

(* ================================================================== *)
(** * The heuristic analyzer *)
(* ================================================================== *)

Module AnalyzerFacts.

(** The analyzer is the list of its rules, each kept when it fires. *)
Lemma analyze_rules (html : str) :
  analyzeGameHtml html
  = map suggestion_of (filter (fun r => fires r html) rules).
Proof.
  unfold analyzeGameHtml, rules, push. cbn [filter]. unfold fires.
  destruct (test mentionsButtons_re html && negb (test hasLeftRightButtons_re html));
  destruct (negb (test hasArrowKeys_re html));
  destruct (negb (usesAABB html) && usesDistance html);
  destruct (test setsBodyLayout_re html);
  destruct (negb (test hasGameArea_re html));
  destruct (negb (test charset_re html)); reflexivity.
Qed.

(** Leaving rules out keeps their suggestions distinct. *)
Lemma kept_rules_distinct (keep : Rule -> bool) (rs : list Rule) :
  NoDup (map suggestion_of rs) ->
  NoDup (map suggestion_of (filter keep rs)).
Proof.
  intros Hall. induction rs as [|r rs IH]; [constructor|].
  cbn [map] in Hall. apply NoDup_cons_iff in Hall. destruct Hall as [Hr Hrs].
  cbn [filter]. destruct (keep r); [|exact (IH Hrs)].
  cbn [map]. apply NoDup_cons; [|exact (IH Hrs)].
  intros Hin. apply Hr. rewrite in_map_iff in Hin |- *.
  destruct Hin as (q & Hq & Hqin). exists q. split; [exact Hq|].
  apply filter_In in Hqin. tauto.
Qed.

Lemma NoDup_of_image {A B : Type} (g : A -> B) (l : list A) :
  NoDup (map g l) -> NoDup l.
Proof.
  induction l as [|a l IH]; simpl; intros H; constructor;
    inversion H; subst.
  - intros Hin. apply H2. apply in_map. exact Hin.
  - apply IH. assumption.
Qed.

(** The six suggestions differ from one another (already in length). *)
Lemma suggestions_distinct : NoDup (map suggestion_of rules).
Proof.
  apply (NoDup_of_image (fun d => length (text d))).
  vm_compute. repeat constructor; simpl; intuition discriminate.
Qed.

Lemma filter_length_le {A : Type} (p : A -> bool) (l : list A) :
  length (filter p l) <= length l.
Proof.
  induction l as [|a l IH]; simpl; [lia|]. destruct (p a); simpl; lia.
Qed.

Lemma count_rule (r : Rule) (html : str) :
  count (suggestion_of r) (analyzeGameHtml html)
  = if fires r html then 1 else 0.
Proof.
  rewrite analyze_rules. unfold rules. cbn [filter].
  destruct r;
    destruct (fires ButtonsRule html); destruct (fires ArrowKeysRule html);
    destruct (fires CollisionRule html); destruct (fires BodyLayoutRule html);
    destruct (fires GameAreaRule html); destruct (fires CharsetRule html);
    vm_compute; reflexivity.
Qed.

Lemma suggestion_eqb_eq (a b : Suggestion) :
  suggestion_eqb a b = true <-> a = b.
Proof.
  destruct a as [la ta], b as [lb tb]. unfold suggestion_eqb. simpl.
  rewrite andb_true_iff, str_eqb_eq. split.
  - intros [Hl ->]. destruct la, lb; try discriminate; reflexivity.
  - intros H. injection H as -> ->. split; [destruct lb|]; reflexivity.
Qed.

Lemma count_positive (d : Suggestion) (l : list Suggestion) :
  In d l <-> 1 <= count d l.
Proof.
  unfold count. induction l as [|x l IH]; simpl.
  - split; [tauto | lia].
  - destruct (suggestion_eqb x d) eqn:E; simpl.
    + apply suggestion_eqb_eq in E. split; [lia | auto].
    + rewrite <- IH. split; [|tauto]. intros [H|H]; [|exact H].
      subst. assert (suggestion_eqb d d = true)
        by (apply suggestion_eqb_eq; reflexivity). congruence.
Qed.

(** C5. The analyzer is a total function of the markup: whatever the input,
    its result is the list of the six rules' suggestions, in the order of
    the rules, from which the suggestions of the rules that do not fire are
    left out.  Each rule thus contributes its one suggestion or nothing,
    no suggestion comes twice, and the result has at most six entries. *)
Theorem C5_analyzer_ordered (html : str) :
  analyzeGameHtml html
  = map suggestion_of (filter (fun r => fires r html) rules)
  /\ (forall r,
        count (suggestion_of r) (analyzeGameHtml html)
        = if fires r html then 1 else 0)
  /\ NoDup (analyzeGameHtml html)
  /\ length (analyzeGameHtml html) <= 6.
Proof.
  split; [apply analyze_rules|]. split; [intros r; apply count_rule|].
  rewrite analyze_rules. split.
  - apply kept_rules_distinct. exact suggestions_distinct.
  - rewrite length_map. apply (filter_length_le _ rules).
Qed.

End AnalyzerFacts.
Import AnalyzerFacts.

Module DetectionFacts.

Ltac split_seq H :=
  let u := fresh "u" in
  let v := fresh "v" in
  let Hv := fresh "Hv" in
  apply lang_seq_iff in H; destruct H as (u & v & -> & H & Hv).

Lemma all_class_without (i : bool) (x : cu) (u : str) :
  caseless x ->
  (all (class_match i true [CChar x]) u <-> without x u).
Proof.
  intros Hx. unfold all, without. rewrite Forall_forall. split.
  - intros H Hin. specialize (H x Hin).
    rewrite (class_not_char i x x Hx), cu_eqb_refl in H. discriminate.
  - intros H c Hc. rewrite (class_not_char i x c Hx).
    destruct (cu_eqb c x) eqn:E; [|reflexivity].
    apply cu_eqb_eq in E. subst. contradiction.
Qed.

Lemma caseless_code (c : cu) :
  (c <? 65)%N || ((90 <? c)%N && (c <? 97)%N) || (122 <? c)%N = true ->
  caseless c.
Proof.
  unfold caseless. rewrite !orb_true_iff, andb_true_iff, !N.ltb_lt. lia.
Qed.

(** A literal pattern finds the text it spells. *)
Lemma test_lit (s : string) (i : bool) (html : str) :
  test (mkRegExp (lit s) i) html = true
  <-> exists w, spells i (js s) w /\ occurs w html.
Proof.
  rewrite test_spec. unfold matches_somewhere, occurs. cbn [source ignoreCase].
  split.
  - intros (pre & w & post & -> & H). apply lang_lit in H.
    exists w. split; [exact H|]. exists pre, post. reflexivity.
  - intros (w & H & pre & post & ->). exists pre, w, post.
    split; [reflexivity|]. apply lang_lit. exact H.
Qed.

Lemma test_lit_sensitive (s : string) (html : str) :
  test (mkRegExp (lit s) false) html = true <-> occurs (js s) html.
Proof.
  rewrite test_lit. split.
  - intros (w & H & Ho). apply spells_sensitive in H. subst. exact Ho.
  - intros H. exists (js s). split; [apply spells_sensitive; reflexivity|].
    exact H.
Qed.

Lemma usesDistance_spec (html : str) :
  usesDistance html = true <-> distance_check html.
Proof.
  unfold usesDistance, usesDistance_re, distance_check, spaces.
  rewrite test_spec. unfold matches_somewhere. cbn [source ignoreCase].
  assert (Hparen : caseless (chr ")")) by (apply caseless_code; reflexivity).
  split.
  - intros (pre & w & post & -> & H).
    split_seq H. split_seq H. split_seq H. split_seq H. split_seq H.
    split_seq H.
    apply lang_lit, spells_sensitive in H. subst.
    apply (lang_star_atom false true _ _ _ (atom_class false true _)) in Hv4.
    apply (all_class_without false _ _ Hparen) in Hv4.
    apply lang_lit, spells_sensitive in Hv3. subst.
    apply (lang_star_atom false true _ _ _ (atom_space false)) in Hv2.
    apply lang_lit, spells_sensitive in Hv1. subst.
    apply (lang_star_atom false true _ _ _ (atom_space false)) in Hv0.
    apply (lang_plus_atom false _ _ _ (atom_digit false)) in Hv.
    destruct Hv as [Hne Hd].
    exists pre, v4, v2, v0, v, post. rewrite <- !app_assoc. auto 10.
  - intros (pre & inner & ws1 & ws2 & digits & post & -> & Hi & H1 & H2
            & Hne & Hd).
    exists pre,
      (js "Math.abs(" ++ inner ++ js ")" ++ ws1 ++ js "<" ++ ws2 ++ digits),
      post.
    split; [rewrite <- !app_assoc; reflexivity|].
    replace (js "Math.abs(" ++ inner ++ js ")" ++ ws1 ++ js "<" ++ ws2
               ++ digits)
      with ((((((js "Math.abs(" ++ inner) ++ js ")") ++ ws1) ++ js "<")
              ++ ws2) ++ digits)
      by (rewrite <- !app_assoc; reflexivity).
    apply lang_seq;
      [ apply lang_seq;
        [ apply lang_seq;
          [ apply lang_seq;
            [ apply lang_seq; [ apply lang_seq | ] | ] | ] | ] | ].
    + apply lang_lit, spells_sensitive. reflexivity.
    + apply (lang_star_atom false true _ _ _ (atom_class false true _)).
      apply (all_class_without false _ _ Hparen). exact Hi.
    + apply lang_lit, spells_sensitive. reflexivity.
    + apply (lang_star_atom false true _ _ _ (atom_space false)). exact H1.
    + apply lang_lit, spells_sensitive. reflexivity.
    + apply (lang_star_atom false true _ _ _ (atom_space false)). exact H2.
    + apply (lang_plus_atom false _ _ _ (atom_digit false)). auto.
Qed.

Lemma direction_spec (html : str) :
  test direction_re html = true
  <-> exists word,
        In word [js "left"; js "right"; js "top"; js "bottom"]
        /\ occurs_ci word html.
Proof.
  unfold direction_re. rewrite test_spec.
  unfold matches_somewhere, occurs_ci, occurs. cbn [source ignoreCase].
  split.
  - intros (pre & w & post & -> & H). apply lang_group_iff in H.
    repeat (apply lang_alt_iff in H; destruct H as [H | H]);
      apply lang_lit in H.
    + exists (js "left"). split; [simpl; auto|]. exists w. eauto.
    + exists (js "right"). split; [simpl; auto|]. exists w. eauto.
    + exists (js "top"). split; [simpl; auto|]. exists w. eauto.
    + exists (js "bottom"). split; [simpl; auto 6|]. exists w. eauto.
  - intros (word & Hin & w & Hw & pre & post & ->).
    exists pre, w, post. split; [reflexivity|]. apply lang_group_iff.
    destruct Hin as [<- | [<- | [<- | [<- | []]]]].
    + do 3 apply lang_alt_l. apply lang_lit. exact Hw.
    + do 2 apply lang_alt_l. apply lang_alt_r. apply lang_lit. exact Hw.
    + apply lang_alt_l, lang_alt_r. apply lang_lit. exact Hw.
    + apply lang_alt_r. apply lang_lit. exact Hw.
Qed.

Lemma usesAABB_spec (html : str) : usesAABB html = true <-> aabb_check html.
Proof.
  unfold usesAABB, aabb_check, boundingRect_re.
  rewrite andb_true_iff, test_lit_sensitive, direction_spec. tauto.
Qed.

Lemma charset_spec (html : str) :
  test charset_re html = true <-> declares_utf8 html.
Proof.
  unfold charset_re, declares_utf8.
  rewrite test_spec. unfold matches_somewhere. cbn [source ignoreCase].
  split.
  - intros (pre & w & post & -> & H). split_seq H. split_seq H.
    apply lang_lit in H.
    apply (lang_star_atom true true _ _ _ (atom_dot true)) in Hv0.
    apply lang_lit in Hv.
    exists pre, u0, v0, v, post. rewrite <- !app_assoc. auto.
  - intros (pre & a & mid & b & post & -> & Ha & Hm & Hb).
    exists pre, ((a ++ mid) ++ b), post.
    split; [rewrite <- !app_assoc; reflexivity|].
    apply lang_seq; [apply lang_seq|].
    + apply lang_lit. exact Ha.
    + apply (lang_star_atom true true _ _ _ (atom_dot true)). exact Hm.
    + apply lang_lit. exact Hb.
Qed.

End DetectionFacts.
Import DetectionFacts.

Module RuleTheorems.

(** C7. Rule 3 puts its warning in the result exactly when the distance
    check is found and the bounding-box check is not; otherwise it adds
    nothing.  The warning never comes twice. *)
Theorem C7_collision_rule (html : str) :
  (In collision_suggestion (analyzeGameHtml html)
   <-> distance_check html /\ ~ aabb_check html)
  /\ level collision_suggestion = warning
  /\ count collision_suggestion (analyzeGameHtml html) <= 1.
Proof.
  assert (Hc := count_rule CollisionRule html).
  cbn [suggestion_of fires] in Hc.
  rewrite count_positive, Hc, <- usesDistance_spec, <- usesAABB_spec.
  destruct (usesAABB html), (usesDistance html); simpl;
    (split; [|split; [reflexivity | lia]]);
    split; try lia; try tauto; intros [? ?]; congruence.
Qed.

(** C6, as stated, fails: this input has no [<meta charset>] tag, and the
    analyzer gives no charset warning for it. *)
Lemma C6_no_tag_no_warning :
  lacks_meta_charset charset_in_text = true
  /\ count charset_suggestion (analyzeGameHtml charset_in_text) = 0.
Proof. split; vm_compute; reflexivity. Qed.

Lemma meta_charset_declares (html : str) :
  occurs (js ("<meta charset=" ++ dquote ++ "UTF-8" ++ dquote ++ ">")) html ->
  declares_utf8 html.
Proof.
  intros (pre & post & ->).
  exists (pre ++ js "<meta "), (js "charset="), (js dquote), (js "UTF-8"),
    (js (dquote ++ ">") ++ post).
  split; [rewrite <- !app_assoc; reflexivity|].
  split; [|split]; repeat constructor.
Qed.

(** C6, amended.  The analyzer gives its charset warning exactly once when
    the markup has no text [charset=] followed on the same line by
    [utf-8] (in any letter case), and not at all when it has one, as
    [<meta charset="UTF-8">] does.  A meta tag is not looked for. *)
Theorem C6_charset_rule (html : str) :
  (~ declares_utf8 html ->
   count charset_suggestion (analyzeGameHtml html) = 1)
  /\ (declares_utf8 html ->
      count charset_suggestion (analyzeGameHtml html) = 0)
  /\ level charset_suggestion = warning
  /\ (occurs (js ("<meta charset=" ++ dquote ++ "UTF-8" ++ dquote ++ ">"))
        html ->
      count charset_suggestion (analyzeGameHtml html) = 0).
Proof.
  assert (Hc := count_rule CharsetRule html).
  cbn [suggestion_of fires] in Hc. rewrite Hc.
  assert (Hs := charset_spec html).
  split; [|split; [|split; [reflexivity|]]].
  - intros H. destruct (test charset_re html); [|reflexivity].
    exfalso. apply H, Hs. reflexivity.
  - intros H. apply Hs in H. rewrite H. reflexivity.
  - intros H. apply meta_charset_declares, Hs in H. rewrite H. reflexivity.
Qed.

End RuleTheorems.

(* ================================================================== *)
(** * The labelled-number patterns of the score parser *)
(* ================================================================== *)

Module LabelFacts.

Lemma strip_spec (i : bool) (l s t : str) :
  strip i l s = Some t <-> exists w, s = w ++ t /\ spells i l w.
Proof.
  revert s. induction l as [|a l IH]; intros s; simpl.
  - split.
    + intros H; injection H as ->. exists []. split; [reflexivity|constructor].
    + intros (w & -> & H). inversion H; subst. reflexivity.
  - destruct s as [|b s].
    + split; [discriminate|]. intros (w & H & Hw).
      inversion Hw; subst. discriminate.
    + destruct (char_match i a b) eqn:E.
      * rewrite IH. split.
        -- intros (w & -> & Hw). exists (b :: w). split; [reflexivity|].
           constructor; assumption.
        -- intros (w & H & Hw). inversion Hw; subst. injection H as -> ->.
           eauto.
      * split; [discriminate|]. intros (w & H & Hw).
        inversion Hw; subst. injection H as -> ->. congruence.
Qed.

Lemma compile_lit (i : bool) (l : str) (k : continuation) (s : str)
    (c : captures) :
  compile i (fold_right (fun x r => Seq (Chr x) r) Eps l) k s c
  = match strip i l s with
    | Some t => k t c
    | None => None
    end.
Proof.
  revert s. induction l as [|a l IH]; intros s; simpl; [reflexivity|].
  unfold char_set_matcher. destruct s as [|b s]; [reflexivity|].
  destruct (char_match i a b); [apply IH | reflexivity].
Qed.

Lemma span_spec (P : cu -> bool) (s : str) :
  s = fst (span P s) ++ snd (span P s)
  /\ all P (fst (span P s))
  /\ forall x t, snd (span P s) = x :: t -> P x = false.
Proof.
  induction s as [|x s IH]; simpl.
  - repeat split; [constructor | discriminate].
  - destruct (P x) eqn:E.
    + destruct (span P s) as [a b]. simpl in *.
      destruct IH as (-> & Ha & Hb). repeat split; auto.
      constructor; assumption.
    + simpl. repeat split; [constructor|].
      intros y t H. injection H as -> ->. exact E.
Qed.

Lemma span_app (P : cu -> bool) (u t : str) :
  all P u -> (forall x t', t = x :: t' -> P x = false) ->
  span P (u ++ t) = (u, t).
Proof.
  intros Hu Ht. induction Hu as [|x u Hx _ IH]; simpl.
  - destruct t as [|y t']; simpl; [reflexivity|].
    rewrite (Ht y t' eq_refl). reflexivity.
  - rewrite Hx, IH. reflexivity.
Qed.

(** A greedy run of one kind of character, before a continuation that
    cannot start with such a character or that succeeds after the whole
    run: backtracking into the run changes nothing. *)
Lemma repeat_greedy_run (P : cu -> bool) (k : continuation) (u t : str)
    (c : captures) (fuel : nat) :
  all P u ->
  (forall x t', t = x :: t' -> P x = false) ->
  length (u ++ t) < fuel ->
  (k t c <> None \/ forall x t' c', P x = true -> k (x :: t') c' = None) ->
  repeat_matcher (char_set_matcher P) true fuel k (u ++ t) c = k t c.
Proof.
  intros Hu Ht. revert fuel. induction Hu as [|x u Hx _ IH];
    intros fuel Hlen Hk; (destruct fuel as [|fuel]; [simpl in Hlen; lia|]).
  - simpl. unfold char_set_matcher. destruct t as [|y t']; [reflexivity|].
    rewrite (Ht y t' eq_refl). reflexivity.
  - cbn [repeat_matcher app]. unfold char_set_matcher at 1. rewrite Hx.
    replace (length (u ++ t) <? length (x :: u ++ t)) with true
      by (symmetry; apply Nat.ltb_lt; simpl; lia).
    rewrite IH; [| simpl in Hlen; lia | exact Hk].
    destruct (k t c) eqn:E; [reflexivity|].
    destruct Hk as [Hk | Hk]; [congruence|].
    apply Hk. exact Hx.
Qed.

Lemma is_separator_class (c : cu) :
  class_match true false [CChar (chr ":"); CSpace] c = is_separator c.
Proof.
  unfold class_match, is_separator. cbn [existsb item_match].
  rewrite orb_false_r, xorb_false_l. f_equal.
  assert (Hc : caseless (chr ":")) by (apply caseless_code; reflexivity).
  destruct (char_match true (chr ":") c) eqn:E.
  - apply char_match_caseless in E; [|exact Hc]. subst.
    symmetry. apply cu_eqb_refl.
  - destruct (cu_eqb c (chr ":")) eqn:E'; [|reflexivity].
    apply cu_eqb_eq in E'. subst.
    assert (char_match true (chr ":") (chr ":") = true)
      by (apply char_match_caseless; [exact Hc | reflexivity]).
    congruence.
Qed.

Lemma separator_not_digit (c : cu) :
  is_separator c = true -> is_digit c = false.
Proof.
  unfold is_separator, is_space, is_digit, in_range, cu_eqb.
  change (chr ":") with 58%N.
  rewrite !orb_true_iff, !andb_true_iff, !N.eqb_eq, !N.leb_le.
  intros H. apply andb_false_iff. rewrite !N.leb_gt. lia.
Qed.

Lemma span_pair (P : cu -> bool) (s a b : str) :
  span P s = (a, b) ->
  s = a ++ b /\ all P a /\ forall x t, b = x :: t -> P x = false.
Proof.
  intros E. destruct (span_spec P s) as (H1 & H2 & H3).
  rewrite E in H1, H2, H3. simpl in H1, H2, H3. auto.
Qed.

(** The group [(\d+)] before the end of the pattern: it takes the whole
    run of digits. *)
Lemma digits_group (s : str) (c : captures) :
  compile true (Group 1 (Plus Digit)) (fun s' c' => Some (s', c')) s c
  = match fst (span is_digit s) with
    | [] => None
    | _ :: _ => Some (snd (span is_digit s), (1, fst (span is_digit s)) :: c)
    end.
Proof.
  destruct (span is_digit s) as [ds rest] eqn:E.
  destruct (span_pair _ _ _ _ E) as (-> & Hds & Hrest). cbn [fst snd].
  cbn [compile]. unfold char_set_matcher at 1.
  destruct Hds as [|d ds Hd Hds].
  - simpl. destruct rest as [|y r]; [reflexivity|].
    rewrite (Hrest y r eq_refl). reflexivity.
  - cbn [app]. rewrite Hd.
    rewrite (repeat_greedy_run is_digit); auto.
    + replace (length (d :: ds ++ rest) - length rest)
        with (length (d :: ds))
        by (cbn [length]; rewrite length_app; lia).
      change (d :: ds ++ rest) with ((d :: ds) ++ rest).
      rewrite firstn_prefix. reflexivity.
    + left. discriminate.
Qed.

Lemma labelled_match_here (label : string) (s : str) :
  match_here (labelled label) s
  = match labelled_here label s with
    | Some (digits, rest) => Some (rest, [(1, digits)])
    | None => None
    end.
Proof.
  unfold match_here, labelled, labelled_here, lit, separator.
  cbn [source ignoreCase]. cbn [compile]. rewrite compile_lit.
  destruct (strip true (js label) s) as [s'|]; [|reflexivity].
  destruct (span is_separator s') as [seps t] eqn:E.
  destruct (span_pair _ _ _ _ E) as (-> & Hseps & Hnext). cbn [snd].
  rewrite (repeat_greedy_run
             (class_match true false [CChar (chr ":"); CSpace])).
  - transitivity
      (compile true (Group 1 (Plus Digit)) (fun s' c' => Some (s', c')) t []);
      [reflexivity|].
    rewrite digits_group.
    destruct (fst (span is_digit t)); reflexivity.
  - unfold all in *. apply Forall_forall. intros x Hx.
    rewrite is_separator_class.
    rewrite Forall_forall in Hseps. apply Hseps, Hx.
  - intros x t' Ex. rewrite is_separator_class. apply (Hnext x t' Ex).
  - lia.
  - right. intros x t' c' Hx. rewrite is_separator_class in Hx.
    cbn [compile]. unfold char_set_matcher.
    rewrite (separator_not_digit x Hx). reflexivity.
Qed.

End LabelFacts.
Import LabelFacts.

(* ================================================================== *)
(** * The first labelled number of a text *)
(* ================================================================== *)

Module ScoreFacts.

(** The three labels are ideographs: they have no case. *)
Lemma label_caseless (label : string) :
  forallb
    (fun c => (c <? 65)%N || ((90 <? c)%N && (c <? 97)%N) || (122 <? c)%N)
    (js label) = true ->
  Forall caseless (js label).
Proof.
  intros H. apply Forall_forall. intros c Hc.
  rewrite forallb_forall in H. apply caseless_code, H, Hc.
Qed.

Lemma correct_label : is_label "正确".
Proof. apply label_caseless. vm_compute. reflexivity. Qed.

Lemma wrong_label : is_label "错误".
Proof. apply label_caseless. vm_compute. reflexivity. Qed.

Lemma progress_label : is_label "进度".
Proof. apply label_caseless. vm_compute. reflexivity. Qed.

Lemma strip_label (label : string) (s t : str) :
  is_label label ->
  (strip true (js label) s = Some t <-> s = js label ++ t).
Proof.
  intros Hl. rewrite strip_spec. split.
  - intros (w & -> & Hw). apply (spells_caseless true _ _ Hl) in Hw.
    subst. reflexivity.
  - intros ->. exists (js label). split; [reflexivity|].
    apply (spells_caseless true _ _ Hl). reflexivity.
Qed.

Lemma all_app (P : cu -> bool) (u v : str) :
  all P (u ++ v) <-> all P u /\ all P v.
Proof. unfold all. apply Forall_app. Qed.

Lemma labelled_here_Some (label : string) (s digits rest : str) :
  is_label label ->
  (labelled_here label s = Some (digits, rest)
   <-> exists seps,
         s = js label ++ seps ++ digits ++ rest
         /\ all is_separator seps
         /\ digits <> [] /\ all is_digit digits /\ ends_number rest).
Proof.
  intros Hl. unfold labelled_here. split.
  - destruct (strip true (js label) s) as [s'|] eqn:Es; [|discriminate].
    apply (strip_label _ _ _ Hl) in Es. subst s.
    destruct (span is_separator s') as [seps t] eqn:E1.
    destruct (span_pair _ _ _ _ E1) as (-> & Hseps & _). cbn [snd].
    destruct (span is_digit t) as [ds r] eqn:E2.
    destruct (span_pair _ _ _ _ E2) as (-> & Hds & Hr). cbn [fst snd].
    destruct ds as [|d ds]; [discriminate|].
    intros H; injection H as <- <-.
    exists seps. repeat split; auto. discriminate.
  - intros (seps & -> & Hseps & Hne & Hds & Hr).
    rewrite (proj2 (strip_label label _ (seps ++ digits ++ rest) Hl) eq_refl).
    assert (E1 : span is_separator (seps ++ digits ++ rest)
                 = (seps, digits ++ rest)).
    { apply span_app; [exact Hseps|]. intros x t' E.
      destruct Hds as [|d ds Hd _]; [congruence|].
      simpl in E. injection E as <- _.
      destruct (is_separator d) eqn:Ed; [|reflexivity].
      apply separator_not_digit in Ed. congruence. }
    rewrite E1. cbn [snd].
    rewrite (span_app is_digit digits rest Hds Hr). cbn [fst snd].
    destruct digits; [congruence | reflexivity].
Qed.

Lemma labelled_here_None (label : string) (s : str) :
  is_label label ->
  (labelled_here label s = None <-> ~ labelled_number_at label s 0).
Proof.
  intros Hl. split.
  - intros E (pre & seps & digits & post & Hs & Hk & Hseps & Hne & Hds).
    destruct pre; [|discriminate]. simpl in Hs.
    destruct (span is_digit post) as [more rest] eqn:Ep.
    destruct (span_pair _ _ _ _ Ep) as (-> & Hmore & Hrest).
    assert (H : labelled_here label s = Some (digits ++ more, rest)).
    { apply (labelled_here_Some _ _ _ _ Hl). exists seps.
      rewrite <- app_assoc. repeat split; auto.
      - destruct digits; [congruence | discriminate].
      - apply all_app. auto. }
    congruence.
  - intros H. destruct (labelled_here label s) as [[digits rest]|] eqn:E;
      [|reflexivity].
    exfalso. apply H. apply (labelled_here_Some _ _ _ _ Hl) in E.
    destruct E as (seps & -> & Hseps & Hne & Hds & _).
    exists [], seps, digits, rest. auto.
Qed.

Lemma labelled_number_at_S (label : string) (x : cu) (s : str) (k : nat) :
  labelled_number_at label (x :: s) (S k) <-> labelled_number_at label s k.
Proof.
  split.
  - intros (pre & seps & digits & post & Hs & Hk & H).
    destruct pre as [|y pre]; [discriminate|]. simpl in Hs, Hk.
    injection Hs as -> ->. exists pre, seps, digits, post.
    split; [reflexivity|]. split; [lia | exact H].
  - intros (pre & seps & digits & post & -> & Hk & H).
    exists (x :: pre), seps, digits, post.
    split; [reflexivity|]. split; [simpl; lia | exact H].
Qed.

(** [match] returns the capture of the leftmost position that holds a
    labelled number, and [null] when there is none. *)
Lemma match_labelled_first (label : string) (text digits rest : str)
    (k : nat) :
  is_label label ->
  labelled_here label (skipn k text) = Some (digits, rest) ->
  k <= length text ->
  (forall j, j < k -> ~ labelled_number_at label text j) ->
  match_ text (labelled label) = Some [(1, digits)].
Proof.
  intros Hl. unfold match_. revert k.
  induction text as [|x text IH]; intros k Hk Hlen Hfirst.
  - destruct k; [|simpl in Hlen; lia]. simpl in Hk.
    cbn [exec]. rewrite labelled_match_here, Hk. reflexivity.
  - destruct k as [|k].
    + simpl in Hk. cbn [exec]. rewrite labelled_match_here, Hk. reflexivity.
    + cbn [exec]. rewrite labelled_match_here.
      assert (E : labelled_here label (x :: text) = None).
      { apply (labelled_here_None _ _ Hl). apply Hfirst. lia. }
      rewrite E. apply (IH k).
      * exact Hk.
      * simpl in Hlen. lia.
      * intros j Hj H. apply (Hfirst (S j)); [lia|].
        apply labelled_number_at_S. exact H.
Qed.

Lemma match_labelled_none (label : string) (text : str) :
  is_label label ->
  (match_ text (labelled label) = None <-> ~ has_labelled_number label text).
Proof.
  intros Hl. unfold match_, has_labelled_number.
  induction text as [|x text IH]; cbn [exec]; rewrite labelled_match_here.
  - destruct (labelled_here label []) as [[d r]|] eqn:E.
    + split; [discriminate|]. intros H. exfalso.
      assert (E' : labelled_here label [] <> None) by congruence.
      apply E'. apply (labelled_here_None _ _ Hl). intros H0. apply H.
      exists 0. exact H0.
    + split; [|reflexivity]. intros _ [k Hk].
      apply (labelled_here_None _ _ Hl) in E.
      destruct k; [contradiction|].
      destruct Hk as (pre & ? & ? & ? & Hs & Hlen & _).
      destruct pre; discriminate.
  - destruct (labelled_here label (x :: text)) as [[d r]|] eqn:E.
    + split; [discriminate|]. intros H. exfalso.
      assert (E' : labelled_here label (x :: text) <> None) by congruence.
      apply E'. apply (labelled_here_None _ _ Hl). intros H0. apply H.
      exists 0. exact H0.
    + apply (labelled_here_None _ _ Hl) in E. rewrite IH. split.
      * intros H [k Hk]. destruct k; [contradiction|].
        apply H. exists k. apply labelled_number_at_S in Hk. exact Hk.
      * intros H [k Hk]. apply H. exists (S k).
        apply labelled_number_at_S. exact Hk.
Qed.

(** Whatever [match] finds is one capture, a run of digits. *)
Lemma match_labelled_digits (label : string) (text : str) (m : captures) :
  match_ text (labelled label) = Some m ->
  exists digits,
    m = [(1, digits)] /\ digits <> [] /\ all is_digit digits.
Proof.
  unfold match_.
  assert (Hhere : forall s r, match_here (labelled label) s = Some r ->
            exists digits,
              snd r = [(1, digits)] /\ digits <> [] /\ all is_digit digits).
  { intros s r. rewrite labelled_match_here. unfold labelled_here.
    destruct (strip true (js label) s) as [s'|]; [|discriminate].
    set (t := snd (span is_separator s')).
    destruct (span_spec is_digit t) as (_ & Hds & _).
    destruct (fst (span is_digit t)) as [|d ds] eqn:E; [discriminate|].
    intros H; injection H as <-. exists (d :: ds).
    split; [reflexivity|]. split; [discriminate | exact Hds]. }
  induction text as [|x text IH]; cbn [exec].
  - destruct (match_here (labelled label) []) as [r|] eqn:E; [|discriminate].
    simpl. intros H; injection H as <-. apply (Hhere _ _ E).
  - destruct (match_here (labelled label) (x :: text)) as [r|] eqn:E.
    + simpl. intros H; injection H as <-. apply (Hhere _ _ E).
    + exact IH.
Qed.

End ScoreFacts.
Import ScoreFacts.

Module ParseIntFacts.

Local Open Scope Z_scope.

Lemma digit_code (d : cu) : is_digit d = true <-> (48 <= d <= 57)%N.
Proof. unfold is_digit. apply in_range_spec. Qed.

Lemma digit_not_space (d : cu) : is_digit d = true -> is_space d = false.
Proof.
  intros H. destruct (is_space d) eqn:E; [|reflexivity].
  assert (Hs : is_separator d = true)
    by (unfold is_separator; rewrite E; apply orb_true_r).
  apply separator_not_digit in Hs. congruence.
Qed.

Lemma digit_not (d c : cu) :
  is_digit d = true -> (c < 48 \/ 57 < c)%N -> cu_eqb d c = false.
Proof.
  intros H Hc. apply digit_code in H. apply cu_eqb_neq. lia.
Qed.

Lemma hex_digit_of_digit (d : cu) :
  is_digit d = true -> hex_digit_value d = Some (digit_value d).
Proof.
  intros H. unfold hex_digit_value, digit_value. fold (is_digit d).
  rewrite H. reflexivity.
Qed.

Lemma radix_ten (ds : str) :
  all is_digit ds -> radix_value 10 ds = decimal_value ds.
Proof.
  intros H. unfold radix_value, decimal_value.
  assert (Hacc : forall acc,
            fold_left
              (fun a c =>
                 10 * a + match hex_digit_value c with
                          | Some v => v
                          | None => 0
                          end) ds acc
            = fold_left (fun a c => 10 * a + digit_value c) ds acc).
  { induction H as [|d ds Hd _ IH]; intros acc; [reflexivity|].
    cbn [fold_left]. rewrite (hex_digit_of_digit d Hd). apply IH. }
  apply Hacc.
Qed.

Lemma decimal_value_nonneg (ds : str) :
  all is_digit ds -> 0 <= decimal_value ds.
Proof.
  intros H. unfold decimal_value.
  assert (Hacc : forall acc, 0 <= acc ->
            0 <= fold_left (fun a c => 10 * a + digit_value c) ds acc).
  { induction H as [|d ds Hd _ IH]; intros acc Ha; [exact Ha|].
    cbn [fold_left]. apply IH. apply digit_code in Hd.
    unfold digit_value. lia. }
  apply Hacc. lia.
Qed.

(** [parseInt] of a run of digits is the Number value of the integer they
    denote in base 10. *)
Lemma parseInt_digits (digits : str) :
  digits <> [] -> all is_digit digits ->
  parseInt digits = of_Z (decimal_value digits).
Proof.
  intros Hne Hall.
  assert (Hspan : span is_digit digits = (digits, [])).
  { rewrite <- (app_nil_r digits) at 1. apply span_app; [exact Hall|].
    discriminate. }
  destruct digits as [|d ds]; [congruence|].
  inversion Hall as [|? ? Hd Hds]; subst.
  unfold parseInt, trim_start. cbn [span].
  rewrite (digit_not_space d Hd). cbn [snd].
  rewrite (digit_not d 45 Hd), (digit_not d 43 Hd) by (left; reflexivity).
  destruct ds as [|x ds'].
  - cbv beta iota. rewrite Hspan. cbn [fst].
    rewrite (radix_ten [d] Hall). reflexivity.
  - inversion Hds as [|? ? Hx _]; subst.
    rewrite (digit_not x 120 Hx), (digit_not x 88 Hx) by (right; reflexivity).
    rewrite andb_false_r. cbv beta iota. rewrite Hspan. cbn [fst].
    rewrite (radix_ten (d :: x :: ds') Hall). reflexivity.
Qed.

End ParseIntFacts.
Import ParseIntFacts.

(* ================================================================== *)
(** * The score parser *)
(* ================================================================== *)

Module ScoreTheorems.

Lemma parse_text (previous : ScoreState) (payload : jsval) (text : str) :
  score_text payload = Some text ->
  parse previous payload
  = {| correct := updated correctPattern text (correct previous);
       wrong := updated wrongPattern text (wrong previous);
       progress := updated progressPattern text (progress previous) |}.
Proof.
  unfold score_text, parse, handleScoreUpdate, updated.
  destruct (ToBoolean (GetOptional payload "score")); [|discriminate].
  destruct (call_toString (GetOptional payload "score")) as [t|];
    [|discriminate].
  intros H; injection H as ->. reflexivity.
Qed.

Lemma parse_no_text (previous : ScoreState) (payload : jsval) :
  score_text payload = None -> parse previous payload = previous.
Proof.
  unfold score_text, parse, handleScoreUpdate.
  destruct (ToBoolean (GetOptional payload "score")); [|reflexivity].
  destruct (call_toString (GetOptional payload "score")) as [t|];
    [discriminate | reflexivity].
Qed.


Lemma updated_first (label : string) (text digits : str) (old : number) :
  is_label label ->
  first_labelled_number label text digits ->
  updated (labelled label) text old = of_Z (decimal_value digits).
Proof.
  intros Hl (pre & seps & post & -> & Hseps & Hne & Hds & Hpost & Hfirst).
  unfold updated.
  rewrite (match_labelled_first label _ digits post (length pre) Hl).
  - unfold parseInt_capture. simpl capture. apply parseInt_digits; assumption.
  - rewrite skipn_app, skipn_all, Nat.sub_diag. simpl.
    apply (labelled_here_Some _ _ _ _ Hl). exists seps. auto.
  - rewrite length_app. lia.
  - exact Hfirst.
Qed.

Lemma updated_count (label : string) (text : str) (old : number) :
  is_count old -> is_count (updated (labelled label) text old).
Proof.
  intros Hold. unfold updated.
  destruct (match_ text (labelled label)) as [m|] eqn:E; [|exact Hold].
  destruct (match_labelled_digits _ _ _ E) as (digits & -> & Hne & Hds).
  unfold parseInt_capture. simpl capture.
  exists (decimal_value digits). split.
  - apply decimal_value_nonneg, Hds.
  - apply parseInt_digits; assumption.
Qed.

Lemma score_text_payload (text : str) :
  text <> [] -> score_text (score_payload text) = Some text.
Proof.
  intros H. destruct text as [|x text]; [congruence|]. reflexivity.
Qed.

Lemma first_labelled_nonempty (label : string) (text digits : str) :
  first_labelled_number label text digits -> text <> [].
Proof.
  intros (pre & seps & post & -> & _ & Hne & _) E.
  apply app_eq_nil in E. destruct E as [_ E].
  apply app_eq_nil in E. destruct E as [_ E].
  apply app_eq_nil in E. destruct E as [_ E].
  apply app_eq_nil in E. destruct E as [E _]. contradiction.
Qed.


(** C10. Each pattern is matched at its leftmost occurrence in the status
    text, and the digits captured there are read in base 10: when the
    first labelled number of the text for a label has the digits
    [digits], the field of that label becomes the Number value of the
    integer these digits denote.  Of two correct counts the first wins. *)
Theorem C10_first_match_base_ten (previous : ScoreState)
    (text digits : str) :
  (first_labelled_number "正确" text digits ->
   correct (parse previous (score_payload text))
   = of_Z (decimal_value digits))
  /\ (first_labelled_number "错误" text digits ->
      wrong (parse previous (score_payload text))
      = of_Z (decimal_value digits))
  /\ (first_labelled_number "进度" text digits ->
      progress (parse previous (score_payload text))
      = of_Z (decimal_value digits))
  /\ correct (parse previous (score_payload (js "正确:3 正确:7"))) = of_Z 3.
Proof.
  split; [|split; [|split]].
  - intros H.
    rewrite (parse_text previous _ text
               (score_text_payload text (first_labelled_nonempty _ _ _ H))).
    apply (updated_first "正确" text digits _ correct_label H).
  - intros H.
    rewrite (parse_text previous _ text
               (score_text_payload text (first_labelled_nonempty _ _ _ H))).
    apply (updated_first "错误" text digits _ wrong_label H).
  - intros H.
    rewrite (parse_text previous _ text
               (score_text_payload text (first_labelled_nonempty _ _ _ H))).
    apply (updated_first "进度" text digits _ progress_label H).
  - vm_compute. reflexivity.
Qed.

(** C3, as stated, fails: from the initial state, a status text with the
    progress 50 gives a state whose progress is 50, not an integer from 0
    to 10. *)
Lemma C3_progress_beyond_ten :
  progress_in_range initialScore = true
  /\ progress (run [score_payload (js "进度:50")]) = of_Z 50
  /\ progress_in_range (run [score_payload (js "进度:50")]) = false.
Proof. repeat split; vm_compute; reflexivity. Qed.

Lemma parse_counts (previous : ScoreState) (payload : jsval) :
  is_count (correct previous) /\ is_count (wrong previous)
  /\ is_count (progress previous) ->
  is_count (correct (parse previous payload))
  /\ is_count (wrong (parse previous payload))
  /\ is_count (progress (parse previous payload)).
Proof.
  intros (Hc & Hw & Hp). destruct (score_text payload) as [text|] eqn:E.
  - rewrite (parse_text previous payload text E). cbn [correct wrong progress].
    repeat split; apply updated_count; assumption.
  - rewrite (parse_no_text previous payload E). auto.
Qed.

End ScoreTheorems.

(* ================================================================== *)
(** * The Number value of a non-negative integer *)
(* ================================================================== *)

Module NumberFacts.

Local Open Scope Z_scope.

Lemma shr_1_nonneg (mrs : shr_record) :
  0 <= shr_m mrs -> 0 <= shr_m (shr_1 mrs).
Proof.
  destruct mrs as [m r s]. simpl.
  destruct m as [|p|p]; simpl; try lia; destruct p; simpl; lia.
Qed.

Lemma iter_pos_nonneg (p : positive) (mrs : shr_record) :
  0 <= shr_m mrs -> 0 <= shr_m (iter_pos shr_1 p mrs).
Proof.
  revert mrs. induction p as [p IH|p IH|]; intros mrs H; simpl.
  - apply IH, IH, shr_1_nonneg, H.
  - apply IH, IH, H.
  - apply shr_1_nonneg, H.
Qed.

Lemma shr_fexp_nonneg (m e : Z) (l : location) :
  0 <= m ->
  0 <= shr_m (fst (shr_fexp prec emax m e l))
  /\ e <= snd (shr_fexp prec emax m e l).
Proof.
  intros Hm. unfold shr_fexp, shr.
  assert (H0 : 0 <= shr_m (shr_record_of_loc m l)).
  { destruct l as [|[]]; simpl; exact Hm. }
  destruct (fexp prec emax (Zdigits2 m + e) - e) as [|p|p] eqn:E; simpl.
  - split; [exact H0 | lia].
  - split; [apply iter_pos_nonneg, H0 | lia].
  - split; [exact H0 | lia].
Qed.

Lemma round_nearest_even_nonneg (m : Z) (l : location) :
  0 <= m -> 0 <= round_nearest_even m l.
Proof.
  intros H. destruct l as [|[]]; simpl; try lia.
  destruct (Z.even m); lia.
Qed.

(** Rounding a non-negative mantissa with a non-negative exponent gives a
    non-negative integer or [+Infinity]. *)
Lemma binary_round_aux_natural (m e : Z) (l : location) :
  0 <= m -> 0 <= e ->
  natural_or_infinity (binary_round_aux prec emax false m e l) = true.
Proof.
  intros Hm He. unfold binary_round_aux.
  destruct (shr_fexp prec emax m e l) as [mrs' e'] eqn:E1.
  destruct (shr_fexp_nonneg m e l Hm) as [H1 H2]. rewrite E1 in H1, H2.
  simpl in H1, H2.
  destruct (shr_fexp prec emax
              (round_nearest_even (shr_m mrs') (loc_of_shr_record mrs')) e'
              loc_Exact) as [mrs'' e''] eqn:E2.
  destruct (shr_fexp_nonneg _ e' loc_Exact
              (round_nearest_even_nonneg _ (loc_of_shr_record mrs') H1))
    as [H3 H4].
  rewrite E2 in H3, H4. simpl in H3, H4.
  destruct (shr_m mrs'') as [|p|p]; [reflexivity | | lia].
  destruct (e'' <=? emax - prec); [|reflexivity].
  simpl. apply orb_true_iff. left. apply Z.leb_le. lia.
Qed.

Lemma iter_xO (m d : positive) :
  digits2_pos (Pos.iter xO m d) = (digits2_pos m + d)%positive
  /\ Zpos (Pos.iter xO m d) = Zpos m * 2 ^ Zpos d.
Proof.
  apply (Pos.iter_ind positive xO m
           (fun p a => digits2_pos a = (digits2_pos m + p)%positive
                       /\ Zpos a = Zpos m * 2 ^ Zpos p)).
  - split; [simpl; lia|]. rewrite Z.pow_1_r. lia.
  - intros p a [H1 H2]. split.
    + simpl. rewrite H1. lia.
    + rewrite Pos2Z.inj_xO, H2, Pos2Z.inj_succ, Z.pow_succ_r by lia. lia.
Qed.

(** An integer below [2^53] is a Number as it is. *)
Lemma binary_round_small (m : positive) :
  Zpos (digits2_pos m) < prec ->
  natural_or_infinity (binary_round prec emax false m 0) = true.
Proof.
  intros Hd. unfold binary_round, shl_align.
  assert (Hf : fexp prec emax (Zpos (digits2_pos m) + 0)
               = Zpos (digits2_pos m) - prec).
  { unfold fexp, emin, prec, emax in *. lia. }
  rewrite Hf.
  destruct (Zpos (digits2_pos m) - prec - 0) as [|p|d] eqn:Ed;
    [unfold prec in *; lia | unfold prec in *; lia |].
  destruct (iter_xO m d) as [Hdig Hval].
  set (mz := Pos.iter xO m d) in *.
  assert (Hshift : forall l,
            shr_fexp prec emax (Zpos mz) (Zpos (digits2_pos m) - prec) l
            = (shr_record_of_loc (Zpos mz) l, Zpos (digits2_pos m) - prec)).
  { intros l. unfold shr_fexp. cbn [Zdigits2]. rewrite Hdig.
    replace (fexp prec emax
               (Zpos (digits2_pos m + d) + (Zpos (digits2_pos m) - prec))
             - (Zpos (digits2_pos m) - prec)) with 0
      by (unfold fexp, emin, prec, emax in *; lia).
    reflexivity. }
  unfold binary_round_aux. rewrite Hshift. cbn [shr_record_of_loc shr_m].
  cbn [loc_of_shr_record round_nearest_even]. rewrite Hshift.
  cbn [shr_record_of_loc shr_m].
  replace (Zpos (digits2_pos m) - prec <=? emax - prec) with true
    by (symmetry; apply Z.leb_le; unfold prec, emax in *; lia).
  cbn [natural_or_infinity]. apply orb_true_iff. right. apply Z.eqb_eq.
  rewrite Hval.
  replace (- (Zpos (digits2_pos m) - prec)) with (Zpos d) by lia.
  apply Z.mod_mul. apply Z.pow_nonzero; lia.
Qed.

(** The Number value of a non-negative integer is a non-negative integer
    or [+Infinity]. *)
Lemma of_Z_natural (z : Z) : 0 <= z -> natural_or_infinity (of_Z z) = true.
Proof.
  intros Hz. unfold of_Z, binary_normalize.
  destruct z as [|m|m]; [reflexivity | | lia].
  destruct (Z_lt_le_dec (Zpos (digits2_pos m)) prec) as [Hd | Hd].
  - apply binary_round_small, Hd.
  - unfold binary_round, shl_align.
    destruct (fexp prec emax (Zpos (digits2_pos m) + 0) - 0) as [|p|d] eqn:Ed.
    + apply binary_round_aux_natural; lia.
    + apply binary_round_aux_natural; lia.
    + exfalso. unfold fexp, emin, prec, emax in *. lia.
Qed.

Lemma count_natural (x : number) :
  is_count x -> natural_or_infinity x = true.
Proof. intros (z & Hz & ->). apply of_Z_natural, Hz. Qed.

End NumberFacts.
Import NumberFacts.

Module ScoreInvariant.

Import ScoreTheorems.

Lemma run_counts (payloads : list jsval) (s : ScoreState) :
  is_count (correct s) /\ is_count (wrong s) /\ is_count (progress s) ->
  is_count (correct (fold_left parse payloads s))
  /\ is_count (wrong (fold_left parse payloads s))
  /\ is_count (progress (fold_left parse payloads s)).
Proof.
  revert s. induction payloads as [|p payloads IH]; intros s H; [exact H|].
  simpl. apply IH. apply parse_counts. exact H.
Qed.

Lemma initial_counts :
  is_count (correct initialScore) /\ is_count (wrong initialScore)
  /\ is_count (progress initialScore).
Proof. repeat split; exists 0%Z; split; (lia || reflexivity). Qed.

(** C3, amended.  Whatever payloads arrive, in every state the parser
    produces from the initial state each of [correct], [wrong] and
    [progress] is the Number value of a non-negative integer: a
    non-negative integer, or [+Infinity] when the digits go beyond the
    binary64 range.  No bound of 10 holds for [progress]. *)
Theorem C3_fields_are_counts (payloads : list jsval) :
  (is_count (correct (run payloads))
   /\ is_count (wrong (run payloads))
   /\ is_count (progress (run payloads)))
  /\ natural_or_infinity (correct (run payloads)) = true
  /\ natural_or_infinity (wrong (run payloads)) = true
  /\ natural_or_infinity (progress (run payloads)) = true.
Proof.
  destruct (run_counts payloads initialScore initial_counts)
    as (Hc & Hw & Hp).
  unfold run. repeat split; try assumption; apply count_natural; assumption.
Qed.

End ScoreInvariant.

(* ================================================================== *)
(** * The message listener *)
(* ================================================================== *)

Module HandlerTheorems.

Lemma Get_of_typed (data : jsval) (literal : string) :
  strict_equals (GetOptional data "type") literal = true ->
  forall name, Get data name = Normal (GetOptional data name).
Proof.
  intros H name. destruct data; try reflexivity; simpl in H; discriminate.
Qed.

Lemma handleScoreUpdate_throws (gameScore : ScoreState) (payload : jsval) :
  handleScoreUpdate gameScore payload = TypeError
  <-> unreadable_score payload.
Proof.
  unfold handleScoreUpdate, unreadable_score.
  destruct (GetOptional payload "score") as [| |b|x|s|props] eqn:E;
    cbn [ToBoolean call_toString].
  - split; [discriminate | intros (? & ? & H & _); discriminate].
  - split; [discriminate | intros (? & ? & H & _); discriminate].
  - split; [|intros (? & ? & H & _); discriminate].
    destruct b; discriminate.
  - split; [|intros (? & ? & H & _); discriminate].
    destruct (truthy x); discriminate.
  - split; [|intros (? & ? & H & _); discriminate].
    destruct (negb (length s =? 0)%nat); discriminate.
  - destruct (own props (js "toString")) as [v|] eqn:Eo; cbn [bind].
    + split; [|reflexivity]. intros _. exists props, v. auto.
    + split; [discriminate|]. intros (p & v & H & Hv).
      injection H as <-. congruence.
Qed.

Lemma strict_equals_eq (v : jsval) (literal : string) :
  strict_equals v literal = true <-> v = VStr (js literal).
Proof.
  destruct v; simpl; try (split; discriminate).
  rewrite str_eqb_eq. split; [intros ->; reflexivity|].
  intros H; injection H as ->. reflexivity.
Qed.

(** A message has one type. *)
Lemma type_alert (v : jsval) :
  strict_equals v "game-alert" = true ->
  strict_equals v "game-confirm" = false
  /\ strict_equals v "game-status" = false.
Proof.
  intros H. apply strict_equals_eq in H. subst.
  split; vm_compute; reflexivity.
Qed.

Lemma type_confirm (v : jsval) :
  strict_equals v "game-confirm" = true ->
  strict_equals v "game-alert" = false
  /\ strict_equals v "game-status" = false.
Proof.
  intros H. apply strict_equals_eq in H. subst.
  split; vm_compute; reflexivity.
Qed.

Lemma type_status (v : jsval) :
  strict_equals v "game-status" = true ->
  strict_equals v "game-alert" = false
  /\ strict_equals v "game-confirm" = false.
Proof.
  intros H. apply strict_equals_eq in H. subst.
  split; vm_compute; reflexivity.
Qed.

Lemma dispatch_alert (gameScore : ScoreState) (data : jsval) :
  strict_equals (GetOptional data "type") "game-alert" = true ->
  handleMessage gameScore data
  = Normal [message_info (GetOptional data "message")].
Proof.
  intros H. unfold handleMessage. rewrite H, (Get_of_typed data _ H).
  reflexivity.
Qed.

Lemma dispatch_confirm (gameScore : ScoreState) (data : jsval) :
  strict_equals (GetOptional data "type") "game-confirm" = true ->
  handleMessage gameScore data
  = Normal [message_warning (GetOptional data "message")].
Proof.
  intros H. unfold handleMessage.
  rewrite (proj1 (type_confirm _ H)), H, (Get_of_typed data _ H).
  reflexivity.
Qed.

Lemma dispatch_status (gameScore : ScoreState) (data : jsval) :
  strict_equals (GetOptional data "type") "game-status" = true ->
  handleMessage gameScore data
  = if strict_equals (GetOptional data "status") "score-update" then
      match handleScoreUpdate gameScore (GetOptional data "data") with
      | Normal (Some s) => Normal [setGameScore s]
      | Normal None => Normal []
      | TypeError => TypeError
      end
    else Normal [].
Proof.
  intros H. unfold handleMessage.
  destruct (type_status _ H) as [-> ->]. rewrite H.
  rewrite !(Get_of_typed data _ H). cbn [bind].
  destruct (strict_equals (GetOptional data "status") "score-update");
    [|reflexivity].
  destruct (handleScoreUpdate gameScore (GetOptional data "data"))
    as [[s|]|]; reflexivity.
Qed.

Lemma dispatch_other (gameScore : ScoreState) (data : jsval) :
  strict_equals (GetOptional data "type") "game-alert" = false ->
  strict_equals (GetOptional data "type") "game-confirm" = false ->
  (strict_equals (GetOptional data "type") "game-status"
   && strict_equals (GetOptional data "status") "score-update") = false ->
  handleMessage gameScore data = Normal [].
Proof.
  intros Ha Hc Hs.
  destruct (strict_equals (GetOptional data "type") "game-status") eqn:Es.
  - rewrite (dispatch_status gameScore data Es).
    simpl in Hs. rewrite Hs. reflexivity.
  - unfold handleMessage. rewrite Ha, Hc, Es. reflexivity.
Qed.

Lemma listener_throws (gameScore : ScoreState) (data : jsval) :
  handleMessage gameScore data = TypeError
  <-> strict_equals (GetOptional data "type") "game-status" = true
      /\ strict_equals (GetOptional data "status") "score-update" = true
      /\ unreadable_score (GetOptional data "data").
Proof.
  destruct (strict_equals (GetOptional data "type") "game-status") eqn:Es.
  - rewrite (dispatch_status gameScore data Es).
    rewrite <- (handleScoreUpdate_throws gameScore).
    destruct (strict_equals (GetOptional data "status") "score-update").
    + destruct (handleScoreUpdate gameScore (GetOptional data "data"))
        as [[s|]|]; split; try discriminate; auto;
        intros (_ & _ & H); discriminate.
    + split; [discriminate | intros (_ & H & _); discriminate].
  - split; [|intros (H & _); discriminate].
    destruct (strict_equals (GetOptional data "type") "game-alert") eqn:Ea.
    { rewrite (dispatch_alert gameScore data Ea). discriminate. }
    destruct (strict_equals (GetOptional data "type") "game-confirm") eqn:Ec.
    { rewrite (dispatch_confirm gameScore data Ec). discriminate. }
    rewrite (dispatch_other gameScore data Ea Ec); [discriminate|].
    rewrite Es. reflexivity.
Qed.

(** C8, the dispatch and its one failure.  The listener sends the text of
    a [game-alert] to [message.info] and that of a [game-confirm] to
    [message.warning], passes the data of a [game-status] with status
    [score-update] to the score parser, and drops anything else with no
    effect.  It is not total: on the message [shadowed_toString], and
    exactly on the score updates whose score is an object with an own
    [toString], it throws a [TypeError]; the score is then unchanged. *)
Theorem C8_listener_dispatch (gameScore : ScoreState) (data : jsval) :
  handleMessage initialScore shadowed_toString = TypeError
  /\ (strict_equals (GetOptional data "type") "game-alert" = true ->
      handleMessage gameScore data
      = Normal [message_info (GetOptional data "message")])
  /\ (strict_equals (GetOptional data "type") "game-confirm" = true ->
      handleMessage gameScore data
      = Normal [message_warning (GetOptional data "message")])
  /\ (handleMessage gameScore data = TypeError
      <-> strict_equals (GetOptional data "type") "game-status" = true
          /\ strict_equals (GetOptional data "status") "score-update" = true
          /\ unreadable_score (GetOptional data "data"))
  /\ (strict_equals (GetOptional data "type") "game-status" = true ->
      strict_equals (GetOptional data "status") "score-update" = true ->
      score_after gameScore data = parse gameScore (GetOptional data "data"))
  /\ (strict_equals (GetOptional data "type") "game-alert" = false ->
      strict_equals (GetOptional data "type") "game-confirm" = false ->
      (strict_equals (GetOptional data "type") "game-status"
       && strict_equals (GetOptional data "status") "score-update") = false ->
      handleMessage gameScore data = Normal []
      /\ score_after gameScore data = gameScore).
Proof.
  split; [vm_compute; reflexivity|].
  split; [apply dispatch_alert|]. split; [apply dispatch_confirm|].
  split; [apply listener_throws|]. split.
  - intros Hs Hu. unfold score_after, parse.
    rewrite (dispatch_status gameScore data Hs), Hu.
    destruct (handleScoreUpdate gameScore (GetOptional data "data"))
      as [[s|]|]; reflexivity.
  - intros Ha Hc Hs. unfold score_after.
    rewrite (dispatch_other gameScore data Ha Hc Hs). auto.
Qed.

End HandlerTheorems.

(* ================================================================== *)
(** * The sizing arithmetic *)
(* ================================================================== *)

Module LayoutTheorems.

Local Open Scope completion_scope.




End LayoutTheorems.

(* ================================================================== *)
(** * The theorems on sample inputs *)
(* ================================================================== *)

Module Witnesses.

Import InjectorFacts ContentPreservation RuleTheorems ScoreTheorems
  HandlerTheorems.

Lemma occurs_check (p s : str) : includes s p = true -> occurs p s.
Proof. apply includes_spec. Qed.

Lemma not_occurs_check (p s : str) : includes s p = false -> ~ occurs p s.
Proof. apply includes_false. Qed.

Lemma all_check (P : cu -> bool) (u : str) : forallb P u = true -> all P u.
Proof.
  intros H. apply Forall_forall. intros c Hc.
  rewrite forallb_forall in H. apply H, Hc.
Qed.

Lemma ends_number_check (rest : str) :
  match rest with
  | [] => true
  | d :: _ => negb (is_digit d)
  end = true ->
  ends_number rest.
Proof.
  intros H d t ->. destruct (is_digit d); [discriminate | reflexivity].
Qed.

(** The three tiers of C1, each on a sample. *)
Lemma C1_three_tier_samples :
  (occurs (js "</head>") full_document
   /\ exists pre post,
        first_split (js "</head>") full_document pre post
        /\ injectGameEnhancements full_document
           = pre ++ enhancements ++ js "</head>" ++ post)
  /\ (~ occurs (js "</head>") headless_document
      /\ occurs (js "<body>") headless_document
      /\ exists pre post,
           first_split (js "<body>") headless_document pre post
           /\ injectGameEnhancements headless_document
              = pre ++ js "<head>" ++ enhancements ++ js "</head>"
                    ++ js "<body>" ++ post)
  /\ (~ occurs (js "</head>") fragment
      /\ ~ occurs (js "<body>") fragment
      /\ injectGameEnhancements fragment = enhancements ++ fragment).
Proof.
  assert (H1 : occurs (js "</head>") full_document)
    by (apply occurs_check; vm_compute; reflexivity).
  assert (H2 : ~ occurs (js "</head>") headless_document)
    by (apply not_occurs_check; vm_compute; reflexivity).
  assert (H3 : occurs (js "<body>") headless_document)
    by (apply occurs_check; vm_compute; reflexivity).
  assert (H4 : ~ occurs (js "</head>") fragment)
    by (apply not_occurs_check; vm_compute; reflexivity).
  assert (H5 : ~ occurs (js "<body>") fragment)
    by (apply not_occurs_check; vm_compute; reflexivity).
  split; [|split].
  - split; [exact H1|].
    exact (proj1 (C1_three_tier_fallback full_document) H1).
  - split; [exact H2|]. split; [exact H3|].
    exact (proj1 (proj2 (C1_three_tier_fallback headless_document)) H2 H3).
  - split; [exact H4|]. split; [exact H5|].
    exact (proj2 (proj2 (C1_three_tier_fallback fragment)) H4 H5).
Defined.



(** C6 on a sample that declares no charset. *)
Lemma C6_no_charset_sample :
  ~ declares_utf8 fragment
  /\ count charset_suggestion (analyzeGameHtml fragment) = 1.
Proof.
  assert (H : ~ declares_utf8 fragment).
  { intros Hd. apply charset_spec in Hd. vm_compute in Hd. discriminate. }
  split; [exact H|].
  exact (proj1 (C6_charset_rule fragment) H).
Defined.

(** C7 on a sample with a distance check and no bounding-box check. *)
Lemma C7_distance_sample :
  distance_check distance_game
  /\ ~ aabb_check distance_game
  /\ In collision_suggestion (analyzeGameHtml distance_game).
Proof.
  assert (Hd : distance_check distance_game).
  { apply usesDistance_spec. vm_compute. reflexivity. }
  assert (Ha : ~ aabb_check distance_game).
  { intros H. apply usesAABB_spec in H. vm_compute in H. discriminate. }
  split; [exact Hd|]. split; [exact Ha|].
  exact (proj2 (proj1 (C7_collision_rule distance_game)) (conj Hd Ha)).
Defined.

(** C8 on an alert. *)
Lemma C8_alert_sample :
  strict_equals (GetOptional alert_message "type") "game-alert" = true
  /\ handleMessage initialScore alert_message
     = Normal [message_info (VStr (js "hi"))].
Proof.
  assert (H : strict_equals (GetOptional alert_message "type") "game-alert"
              = true) by (vm_compute; reflexivity).
  split; [exact H|].
  exact (proj1 (proj2 (C8_listener_dispatch initialScore alert_message)) H).
Defined.

(** C10 on a text with two correct counts: the first is taken. *)
Lemma C10_two_counts_sample :
  first_labelled_number "正确" two_counts (js "3")
  /\ correct (parse some_score (score_payload two_counts))
     = of_Z (decimal_value (js "3")).
Proof.
  assert (H : first_labelled_number "正确" two_counts (js "3")).
  { exists [], (js ":"), (js " 正确:7").
    split; [vm_compute; reflexivity|].
    split; [apply all_check; vm_compute; reflexivity|].
    split; [intros E; vm_compute in E; discriminate|].
    split; [apply all_check; vm_compute; reflexivity|].
    split; [apply ends_number_check; vm_compute; reflexivity|].
    intros j Hj. simpl in Hj. lia. }
  split; [exact H|].
  exact (proj1 (C10_first_match_base_ten some_score two_counts (js "3")) H).
Defined.

End Witnesses.
(* ================================================================== *)
(** * The other rules of the analyzer *)
(* ================================================================== *)

Module RuleFacts.

Lemma rule_in (r : Rule) (html : str) :
  In (suggestion_of r) (analyzeGameHtml html) <-> fires r html = true.
Proof.
  rewrite count_positive, count_rule.
  destruct (fires r html); split; intros H; try reflexivity; try lia;
    discriminate.
Qed.

Lemma rule_count (r : Rule) (html : str) :
  count (suggestion_of r) (analyzeGameHtml html) <= 1.
Proof. rewrite count_rule. destruct (fires r html); lia. Qed.

(** A phrase without letters is found as it is written, also under the
    [i] flag. *)
Lemma lang_phrase (s : string) (w : str) :
  forallb
    (fun c => (c <? 65)%N || ((90 <? c)%N && (c <? 97)%N) || (122 <? c)%N)
    (js s) = true ->
  (lang true (lit s) w <-> w = js s).
Proof.
  intros H. rewrite lang_lit. apply spells_caseless, label_caseless, H.
Qed.

Lemma occurs_inside (w pre post : str) : occurs w (pre ++ w ++ post).
Proof. exists pre, post. reflexivity. Qed.

Lemma mentionsButtons_spec (html : str) :
  test mentionsButtons_re html = true <-> mentions_buttons html.
Proof.
  unfold mentionsButtons_re, mentions_buttons, spaces. rewrite test_spec.
  unfold matches_somewhere. cbn [source ignoreCase]. split.
  - intros (pre & w & post & -> & H).
    repeat (apply lang_alt_iff in H; destruct H as [H | H]).
    + apply lang_phrase in H; [|reflexivity]. subst. left.
      eexists. split; [|apply occurs_inside]. simpl. auto.
    + apply lang_phrase in H; [|reflexivity]. subst. left.
      eexists. split; [|apply occurs_inside]. simpl. auto.
    + apply lang_phrase in H; [|reflexivity]. subst. left.
      eexists. split; [|apply occurs_inside]. simpl. auto.
    + split_seq H. split_seq H. apply lang_lit in H, Hv.
      apply (lang_star_atom true true _ _ _ (atom_space true)) in Hv0.
      right. exists (js "left"), u0, v0, v.
      rewrite <- (app_assoc u0 v0 v).
      split; [simpl; auto|]. repeat split; try assumption.
      apply occurs_inside.
    + split_seq H. split_seq H. apply lang_lit in H, Hv.
      apply (lang_star_atom true true _ _ _ (atom_space true)) in Hv0.
      right. exists (js "right"), u0, v0, v.
      rewrite <- (app_assoc u0 v0 v).
      split; [simpl; auto|]. repeat split; try assumption.
      apply occurs_inside.
  - intros [(phrase & Hin & pre & post & ->)
           | (side & a & ws & b & Hin & Ha & Hws & Hb & pre & post & ->)].
    + exists pre, phrase, post. split; [reflexivity|].
      destruct Hin as [<- | [<- | [<- | []]]].
      * do 4 apply lang_alt_l. apply lang_phrase; reflexivity.
      * do 3 apply lang_alt_l. apply lang_alt_r.
        apply lang_phrase; reflexivity.
      * do 2 apply lang_alt_l. apply lang_alt_r.
        apply lang_phrase; reflexivity.
    + exists pre, ((a ++ ws) ++ b), post.
      split; [rewrite <- !app_assoc; reflexivity|].
      destruct Hin as [<- | [<- | []]].
      * apply lang_alt_l, lang_alt_r. apply lang_seq; [apply lang_seq|].
        -- apply lang_lit, Ha.
        -- apply (lang_star_atom true true _ _ _ (atom_space true)), Hws.
        -- apply lang_lit, Hb.
      * apply lang_alt_r. apply lang_seq; [apply lang_seq|].
        -- apply lang_lit, Ha.
        -- apply (lang_star_atom true true _ _ _ (atom_space true)), Hws.
        -- apply lang_lit, Hb.
Qed.

Lemma button_lang (s : string) (w : str) :
  forallb
    (fun c => (c <? 65)%N || ((90 <? c)%N && (c <? 97)%N) || (122 <? c)%N)
    (js s) = true ->
  (lang true
     (Seq (Seq (Seq (Seq (lit "<button")
                      (Star true (Class true [CChar (chr ">")])))
                 (lit ">"))
            (Star true (Class true [CChar (chr "<")])))
        (lit s))
     w
   <-> exists tag attributes label,
         w = tag ++ attributes ++ js ">" ++ label ++ js s
         /\ spells true (js "<button") tag
         /\ without (chr ">") attributes /\ without (chr "<") label).
Proof.
  intros Hs.
  assert (Hgt : caseless (chr ">")) by (apply caseless_code; reflexivity).
  assert (Hlt : caseless (chr "<")) by (apply caseless_code; reflexivity).
  split.
  - intros H. split_seq H. split_seq H. split_seq H. split_seq H.
    apply lang_lit in H.
    apply (lang_star_atom true true _ _ _ (atom_class true true _)) in Hv2.
    apply (all_class_without true _ _ Hgt) in Hv2.
    apply lang_phrase in Hv1; [|reflexivity].
    apply (lang_star_atom true true _ _ _ (atom_class true true _)) in Hv0.
    apply (all_class_without true _ _ Hlt) in Hv0.
    apply lang_phrase in Hv; [|exact Hs]. subst.
    exists u0, v2, v0. rewrite <- !app_assoc. auto.
  - intros (tag & attributes & label & -> & Ht & Ha & Hl).
    replace (tag ++ attributes ++ js ">" ++ label ++ js s)
      with ((((tag ++ attributes) ++ js ">") ++ label) ++ js s)
      by (rewrite <- !app_assoc; reflexivity).
    apply lang_seq; [apply lang_seq; [apply lang_seq; [apply lang_seq|]|]|].
    + apply lang_lit, Ht.
    + apply (lang_star_atom true true _ _ _ (atom_class true true _)).
      apply (all_class_without true _ _ Hgt), Ha.
    + apply lang_phrase; reflexivity.
    + apply (lang_star_atom true true _ _ _ (atom_class true true _)).
      apply (all_class_without true _ _ Hlt), Hl.
    + apply lang_phrase; [exact Hs | reflexivity].
Qed.

Lemma hasLeftRightButtons_spec (html : str) :
  test hasLeftRightButtons_re html = true <-> direction_button html.
Proof.
  unfold hasLeftRightButtons_re, direction_button. rewrite test_spec.
  unfold matches_somewhere. cbn [source ignoreCase]. split.
  - intros (pre & w & post & -> & H).
    apply lang_alt_iff in H. destruct H as [H | H];
      (apply button_lang in H; [|reflexivity]);
      destruct H as (tag & attributes & label & -> & Ht & Ha & Hl);
      exists tag, attributes, label.
    + exists (js "左").
      split; [exact Ht|]. split; [exact Ha|]. split; [exact Hl|].
      split; [simpl; auto | apply occurs_inside].
    + exists (js "右").
      split; [exact Ht|]. split; [exact Ha|]. split; [exact Hl|].
      split; [simpl; auto | apply occurs_inside].
  - intros (tag & attributes & label & side & Ht & Ha & Hl & Hin
            & pre & post & ->).
    exists pre, (tag ++ attributes ++ js ">" ++ label ++ side), post.
    split; [reflexivity|].
    destruct Hin as [<- | [<- | []]]; [apply lang_alt_l | apply lang_alt_r];
      (apply button_lang; [reflexivity|]);
      exists tag, attributes, label; auto.
Qed.

Lemma hasArrowKeys_spec (html : str) :
  test hasArrowKeys_re html = true <-> names_arrow_keys html.
Proof.
  unfold hasArrowKeys_re, names_arrow_keys. rewrite test_spec.
  unfold matches_somewhere. cbn [source ignoreCase]. split.
  - intros (pre & w & post & -> & H).
    apply lang_alt_iff in H. destruct H as [H | H];
      apply lang_lit, spells_sensitive in H; subst;
      [left | right]; apply occurs_inside.
  - intros [(pre & post & ->) | (pre & post & ->)].
    + exists pre, (js "ArrowLeft"), post. split; [reflexivity|].
      apply lang_alt_l, lang_lit, spells_sensitive. reflexivity.
    + exists pre, (js "ArrowRight"), post. split; [reflexivity|].
      apply lang_alt_r, lang_lit, spells_sensitive. reflexivity.
Qed.

Lemma hasGameArea_spec (html : str) :
  test hasGameArea_re html = true <-> game_area_attribute html.
Proof.
  unfold hasGameArea_re, game_area_attribute, occurs_ci. rewrite test_spec.
  unfold matches_somewhere. cbn [source ignoreCase]. split.
  - intros (pre & w & post & -> & H).
    apply lang_alt_iff in H. destruct H as [H | H];
      apply lang_group_iff, lang_lit in H; [left | right];
      exists w; (split; [exact H | apply occurs_inside]).
  - intros [(w & Hw & pre & post & ->) | (w & Hw & pre & post & ->)];
      exists pre, w, post; (split; [reflexivity|]).
    + apply lang_alt_l, lang_group_iff, lang_lit, Hw.
    + apply lang_alt_r, lang_group_iff, lang_lit, Hw.
Qed.

Lemma declaration_lang (property value : string) (decl : str) :
  lang true
    (Seq (Seq (Seq (Seq (lit property) spaces) (lit ":")) spaces)
       (lit value))
    decl
  <-> exists p ws1 ws2 v,
        decl = p ++ ws1 ++ js ":" ++ ws2 ++ v
        /\ all is_space ws1 /\ all is_space ws2
        /\ spells true (js property) p /\ spells true (js value) v.
Proof.
  unfold spaces. split.
  - intros H. split_seq H. split_seq H. split_seq H. split_seq H.
    apply lang_lit in H, Hv.
    apply (lang_star_atom true true _ _ _ (atom_space true)) in Hv2, Hv0.
    apply lang_phrase in Hv1; [|reflexivity]. subst.
    exists u0, v2, v0, v. rewrite <- !app_assoc. auto.
  - intros (p & ws1 & ws2 & v & -> & H1 & H2 & Hp & Hv).
    replace (p ++ ws1 ++ js ":" ++ ws2 ++ v)
      with ((((p ++ ws1) ++ js ":") ++ ws2) ++ v)
      by (rewrite <- !app_assoc; reflexivity).
    apply lang_seq; [apply lang_seq; [apply lang_seq; [apply lang_seq|]|]|].
    + apply lang_lit, Hp.
    + apply (lang_star_atom true true _ _ _ (atom_space true)), H1.
    + apply lang_phrase; reflexivity.
    + apply (lang_star_atom true true _ _ _ (atom_space true)), H2.
    + apply lang_lit, Hv.
Qed.

Lemma setsBodyLayout_spec (html : str) :
  test setsBodyLayout_re html = true <-> body_layout html.
Proof.
  unfold setsBodyLayout_re, body_layout, layout_declaration.
  rewrite test_spec. unfold matches_somewhere. cbn [source ignoreCase].
  assert (Hbrace : caseless (chr "}")) by (apply caseless_code; reflexivity).
  split.
  - intros (pre & w & post & -> & H).
    split_seq H. split_seq H. split_seq H. split_seq H.
    apply lang_lit in H.
    apply (lang_star_atom true true _ _ _ (atom_space true)) in Hv2.
    apply lang_phrase in Hv1; [|reflexivity]. subst.
    apply (lang_star_atom true false _ _ _ (atom_class true true _)) in Hv0.
    apply (all_class_without true _ _ Hbrace) in Hv0.
    apply lang_group_iff, lang_alt_iff in Hv.
    exists u0, v2, v0, v.
    split; [exact H|]. split; [exact Hv2|]. split; [exact Hv0|].
    split; [|exists pre, post; rewrite <- !app_assoc; reflexivity].
    destruct Hv as [Hv | Hv]; apply declaration_lang in Hv;
      destruct Hv as (p & ws1 & ws2 & x & -> & H1 & H2 & Hp & Hx);
      exists p, ws1, ws2, x; auto 10.
  - intros (selector & ws & block & decl & Hs & Hws & Hb
            & (p & ws1 & ws2 & x & -> & H1 & H2 & Hd) & pre & post & ->).
    exists pre,
      ((((selector ++ ws) ++ js "{") ++ block)
         ++ (p ++ ws1 ++ js ":" ++ ws2 ++ x)), post.
    split; [rewrite <- !app_assoc; reflexivity|].
    apply lang_seq; [apply lang_seq; [apply lang_seq; [apply lang_seq|]|]|].
    + apply lang_lit, Hs.
    + apply (lang_star_atom true true _ _ _ (atom_space true)), Hws.
    + apply lang_phrase; reflexivity.
    + apply (lang_star_atom true false _ _ _ (atom_class true true _)).
      apply (all_class_without true _ _ Hbrace), Hb.
    + apply lang_group_iff, lang_alt_iff.
      destruct Hd as [[Hp Hx] | [Hp Hx]]; [left | right];
        apply declaration_lang; exists p, ws1, ws2, x; auto 10.
Qed.

End RuleFacts.
Import RuleFacts.

Module OtherRules.

(** X1. Rule 1 puts its warning in the result exactly when the markup
    mentions the buttons (one of the three phrases, or left or right
    followed by button) and holds no [<button>] whose own text, before the
    next tag opens, has 左 or 右; the warning never comes twice.  A button
    whose label sits in a nested element is not seen: [nested_label] gets
    the warning. *)
Theorem buttons_rule (html : str) :
  (In buttons_suggestion (analyzeGameHtml html)
   <-> mentions_buttons html /\ ~ direction_button html)
  /\ level buttons_suggestion = warning
  /\ count buttons_suggestion (analyzeGameHtml html) <= 1
  /\ In buttons_suggestion (analyzeGameHtml nested_label).
Proof.
  split; [|split; [reflexivity|split]].
  - rewrite (rule_in ButtonsRule). cbn [fires].
    rewrite andb_true_iff, negb_true_iff, mentionsButtons_spec.
    rewrite <- hasLeftRightButtons_spec.
    destruct (test hasLeftRightButtons_re html); split; intros [H1 H2];
      split; try assumption; try discriminate; try reflexivity.
    exfalso. apply H2. reflexivity.
  - apply (rule_count ButtonsRule).
  - apply (rule_in ButtonsRule). vm_compute. reflexivity.
Qed.

(** X2. Rule 2 puts its note in the result exactly when the markup holds
    neither [ArrowLeft] nor [ArrowRight], spelled exactly so; the note
    never comes twice. *)
Theorem arrow_keys_rule (html : str) :
  (In arrowKeys_suggestion (analyzeGameHtml html)
   <-> ~ occurs (js "ArrowLeft") html /\ ~ occurs (js "ArrowRight") html)
  /\ level arrowKeys_suggestion = info
  /\ count arrowKeys_suggestion (analyzeGameHtml html) <= 1.
Proof.
  split; [|split; [reflexivity | apply (rule_count ArrowKeysRule)]].
  rewrite (rule_in ArrowKeysRule). cbn [fires].
  rewrite negb_true_iff. assert (Hs := hasArrowKeys_spec html).
  unfold names_arrow_keys in Hs.
  destruct (test hasArrowKeys_re html); split.
  - discriminate.
  - intros [H1 H2]. exfalso.
    destruct (proj1 Hs eq_refl) as [H | H]; [exact (H1 H) | exact (H2 H)].
  - intros _. split; intros H; [assert (Hk := proj2 Hs (or_introl H))
                              | assert (Hk := proj2 Hs (or_intror H))];
      discriminate.
  - reflexivity.
Qed.

(** X3. Rule 4 puts its note in the result exactly when the markup holds
    the text [body], then an opening brace, and before the next closing
    brace the declaration [display: flex] or [overflow: hidden], all in
    any letter case; the note never comes twice. *)
Theorem body_layout_rule (html : str) :
  (In bodyLayout_suggestion (analyzeGameHtml html) <-> body_layout html)
  /\ level bodyLayout_suggestion = info
  /\ count bodyLayout_suggestion (analyzeGameHtml html) <= 1.
Proof.
  split; [|split; [reflexivity | apply (rule_count BodyLayoutRule)]].
  rewrite (rule_in BodyLayoutRule). cbn [fires]. apply setsBodyLayout_spec.
Qed.

(** X4. Rule 5 puts its note in the result exactly when the markup holds
    neither the attribute text [class="game-area"] nor
    [id="game-container"], in any letter case; the note never comes
    twice.  The class is looked for as the whole attribute: an element of
    the classes [game-area main] does not count, and [multi_class] gets the
    note. *)
Theorem game_area_rule (html : str) :
  (In gameArea_suggestion (analyzeGameHtml html)
   <-> ~ occurs_ci (js ("class=" ++ dquote ++ "game-area" ++ dquote)) html
       /\ ~ occurs_ci (js ("id=" ++ dquote ++ "game-container" ++ dquote))
            html)
  /\ level gameArea_suggestion = info
  /\ count gameArea_suggestion (analyzeGameHtml html) <= 1
  /\ In gameArea_suggestion (analyzeGameHtml multi_class).
Proof.
  split; [|split; [reflexivity|split]].
  - rewrite (rule_in GameAreaRule). cbn [fires].
    rewrite negb_true_iff. assert (Hs := hasGameArea_spec html).
    unfold game_area_attribute in Hs.
    destruct (test hasGameArea_re html); split.
    + discriminate.
    + intros [H1 H2]. exfalso.
      destruct (proj1 Hs eq_refl) as [H | H]; [exact (H1 H) | exact (H2 H)].
    + intros _. split; intros H; [assert (Hk := proj2 Hs (or_introl H))
                                | assert (Hk := proj2 Hs (or_intror H))];
        discriminate.
    + reflexivity.
  - apply (rule_count GameAreaRule).
  - apply (rule_in GameAreaRule). vm_compute. reflexivity.
Qed.

End OtherRules.
(* ================================================================== *)
(** * The score parser as an operation on states *)
(* ================================================================== *)

Module ScoreAlgebra.

Import ScoreTheorems.

Lemma updated_twice (pattern : RegExp) (text : str) (old : number) :
  updated pattern text (updated pattern text old) = updated pattern text old.
Proof. unfold updated. destruct (match_ text pattern); reflexivity. Qed.

Lemma updated_found (label : string) (text : str) (old other : number) :
  is_label label ->
  has_labelled_number label text ->
  updated (labelled label) text old = updated (labelled label) text other.
Proof.
  intros Hl H. unfold updated.
  destruct (match_ text (labelled label)) as [m|] eqn:E; [reflexivity|].
  exfalso. exact (proj1 (match_labelled_none label text Hl) E H).
Qed.

(** X5. A score update is idempotent: the same payload applied a second
    time changes nothing. *)
Theorem parse_idempotent (previous : ScoreState) (payload : jsval) :
  parse (parse previous payload) payload = parse previous payload.
Proof.
  destruct (score_text payload) as [text|] eqn:E.
  - rewrite !(parse_text _ payload text E). cbn [correct wrong progress].
    rewrite !updated_twice. reflexivity.
  - rewrite !(parse_no_text _ payload E). reflexivity.
Qed.

(** X6. A status text that holds all three labelled numbers sets the whole
    state: the result does not depend on the state before. *)
Theorem parse_complete (previous other : ScoreState) (payload : jsval)
    (text : str) :
  score_text payload = Some text ->
  has_labelled_number "正确" text ->
  has_labelled_number "错误" text ->
  has_labelled_number "进度" text ->
  parse previous payload = parse other payload.
Proof.
  intros E Hc Hw Hp. rewrite !(parse_text _ payload text E).
  unfold correctPattern, wrongPattern, progressPattern.
  rewrite (updated_found "正确" text (correct previous) (correct other)
             correct_label Hc),
          (updated_found "错误" text (wrong previous) (wrong other)
             wrong_label Hw),
          (updated_found "进度" text (progress previous) (progress other)
             progress_label Hp).
  reflexivity.
Qed.

End ScoreAlgebra.
(* ================================================================== *)
(** * The injected script and the listener agree on the messages *)
(* ================================================================== *)

Module Protocol.

Import Bridge.

Lemma posted_status (gameScore : ScoreState) (status data : jsval) :
  handleMessage gameScore (sendGameStatus status data)
  = if strict_equals status "score-update" then
      match handleScoreUpdate gameScore data with
      | Normal (Some s) => Normal [setGameScore s]
      | Normal None => Normal []
      | TypeError => TypeError
      end
    else Normal [].
Proof.
  rewrite HandlerTheorems.dispatch_status by reflexivity. reflexivity.
Qed.

Lemma text_update (gameScore : ScoreState) (textContent : str) :
  handleScoreUpdate gameScore (score_payload textContent)
  = Normal match textContent with
           | [] => None
           | _ :: _ => Some (parse gameScore (score_payload textContent))
           end.
Proof. destruct textContent as [|c s]; reflexivity. Qed.


End Protocol.

(* ================================================================== *)
(** * The component over its events *)
(* ================================================================== *)

Module ComponentFacts.

Import Component Invariants ScoreTheorems.

Lemma steps_app (st : State) (a b : list Event) :
  steps st (a ++ b) = steps (steps st a) b.
Proof. apply fold_left_app. Qed.

(** ** Status *)

Lemma consistent_load (html : option str) (st : State) :
  consistent
    (load_effect
       (mkState html (isLoading st) (gameStatus st) (gameScore st)
          (suggestions st) (render_iframe html (iframe st)) (listeners st))).
Proof.
  unfold consistent, load_effect, render_iframe.
  destruct html as [[|c s]|];
    cbn [gameData_html gameStatus suggestions iframe has_game gameScore].
  - split; [simpl; auto|]. split; [split; reflexivity | reflexivity].
  - split; [simpl; auto|]. split; [split; discriminate|].
    split; [reflexivity|]. exists (gameScore st). reflexivity.
  - split; [simpl; auto|]. split; [split; reflexivity | reflexivity].
Qed.

Lemma consistent_step (st : State) (e : Event) :
  consistent st -> consistent (step st e).
Proof.
  intros H. destruct e as [html | | | data]; cbn [step].
  - apply consistent_load.
  - unfold iframe_onload. destruct (iframe st) as [f|] eqn:Ef; [|exact H].
    destruct (onload f) as [sn|]; [|exact H].
    destruct H as (Hin & He & Hg).
    unfold consistent. cbn [gameStatus gameData_html iframe suggestions].
    destruct (gameData_html st) as [[|c s]|]; try congruence.
    split; [simpl; auto|]. split; [split; discriminate|].
    rewrite <- Ef. exact Hg.
  - unfold handleRefresh. destruct (iframe st) as [f|] eqn:Ef; [|exact H].
    destruct (gameData_html st) as [[|c s]|] eqn:Eh; try exact H.
    destruct H as (Hin & He & Hg). rewrite Eh in He, Hg.
    destruct Hg as (Hs & snapshot & Hf).
    unfold consistent. cbn [gameStatus gameData_html iframe suggestions].
    split; [exact Hin|]. split; [exact He|]. split; [exact Hs|].
    exists snapshot. rewrite Ef in Hf. injection Hf as ->. reflexivity.
  - exact H.
Qed.

Lemma consistent_steps (events : list Event) (st : State) :
  consistent st -> consistent (steps st events).
Proof.
  revert st. induction events as [|e events IH]; intros st H; [exact H|].
  apply IH, consistent_step, H.
Qed.

(** ** Listeners *)

Lemma listeners_step (st : State) (e : Event) :
  exists added, listeners (step st e) = listeners st ++ added.
Proof.
  destruct e as [html | | | data]; cbn [step].
  - exists []. rewrite app_nil_r. unfold load_effect. cbn.
    destruct html as [[|c s]|]; reflexivity.
  - unfold iframe_onload. destruct (iframe st) as [f|];
      [|exists []; rewrite app_nil_r; reflexivity].
    destruct (onload f) as [snapshot|];
      [|exists []; rewrite app_nil_r; reflexivity].
    exists [snapshot]. reflexivity.
  - exists []. rewrite app_nil_r. unfold handleRefresh.
    destruct (iframe st); [|reflexivity].
    destruct (gameData_html st) as [[|c s]|]; reflexivity.
  - exists []. rewrite app_nil_r. reflexivity.
Qed.

Lemma listeners_steps (events : list Event) (st : State) :
  exists added, listeners (steps st events) = listeners st ++ added.
Proof.
  revert st. induction events as [|e events IH]; intros st.
  - exists []. rewrite app_nil_r. reflexivity.
  - cbn [steps fold_left]. destruct (IH (step st e)) as [b Hb].
    destruct (listeners_step st e) as [a Ha].
    exists (a ++ b). unfold steps in Hb. rewrite Hb, Ha, app_assoc.
    reflexivity.
Qed.

Lemma listeners_messages (payloads : list jsval) (st : State) :
  listeners (steps st (map Message payloads)) = listeners st.
Proof.
  revert st. induction payloads as [|p payloads IH]; intros st;
    [reflexivity|].
  cbn [map steps fold_left]. unfold steps in IH. rewrite IH. reflexivity.
Qed.

Lemma mounted (c : cu) (s : str) :
  mount (Some (c :: s))
  = mkState (Some (c :: s)) true Loading initialScore
      (analyzeGameHtml (c :: s))
      (Some (mkIframe (Some (injectGameEnhancements (c :: s)))
               (Some initialScore)))
      [].
Proof. reflexivity. Qed.

Lemma rounds_snoc (round : list Event) (k : nat) :
  concat (repeat round (S k)) = concat (repeat round k) ++ round.
Proof.
  induction k as [|k IH]; [simpl; rewrite app_nil_r; reflexivity|].
  change (round ++ concat (repeat round (S k))
          = (round ++ concat (repeat round k)) ++ round).
  rewrite IH, app_assoc. reflexivity.
Qed.

Lemma refreshed_state (c : cu) (s : str) (k : nat) :
  refreshed (c :: s) k
  = mkState (Some (c :: s)) false Ready initialScore
      (analyzeGameHtml (c :: s))
      (Some (mkIframe (Some (injectGameEnhancements (c :: s)))
               (Some initialScore)))
      (repeat initialScore (S k)).
Proof.
  unfold refreshed. induction k as [|k IH].
  - rewrite mounted. reflexivity.
  - replace (IframeLoad :: concat (repeat [Refresh; IframeLoad] (S k)))
      with ((IframeLoad :: concat (repeat [Refresh; IframeLoad] k))
              ++ [Refresh; IframeLoad]).
    + rewrite steps_app, IH. cbn [steps fold_left step].
      unfold handleRefresh, iframe_onload.
      cbn [iframe gameData_html onload gameStatus gameScore suggestions
           listeners isLoading].
      f_equal. change (initialScore :: repeat initialScore k)
        with (repeat initialScore (S k)).
      rewrite <- repeat_cons. reflexivity.
    + rewrite (rounds_snoc [Refresh; IframeLoad] k). reflexivity.
Qed.

(** What a listener asks for: a notice, or the score its own snapshot
    gives. *)
Lemma listener_sets (snapshot : ScoreState) (data : jsval) (s : ScoreState) :
  In (setGameScore s) (listener snapshot data) ->
  s = parse snapshot (GetOptional data "data").
Proof.
  unfold listener.
  destruct (strict_equals (GetOptional data "type") "game-alert") eqn:Ea.
  { rewrite (HandlerTheorems.dispatch_alert snapshot data Ea).
    intros [Hs | []]. discriminate. }
  destruct (strict_equals (GetOptional data "type") "game-confirm") eqn:Ec.
  { rewrite (HandlerTheorems.dispatch_confirm snapshot data Ec).
    intros [Hs | []]. discriminate. }
  destruct (strict_equals (GetOptional data "type") "game-status") eqn:Es.
  - rewrite (HandlerTheorems.dispatch_status snapshot data Es).
    destruct (strict_equals (GetOptional data "status") "score-update");
      [|intros []].
    unfold parse.
    destruct (handleScoreUpdate snapshot (GetOptional data "data"))
      as [[s'|]|]; [|intros []|intros []].
    intros [Hs | []]. congruence.
  - rewrite (HandlerTheorems.dispatch_other snapshot data Ea Ec);
      [intros [] | rewrite Es; reflexivity].
Qed.

Lemma fold_effects_counts (effects : list effect) (s : ScoreState) :
  counts s ->
  (forall s', In (setGameScore s') effects -> counts s') ->
  counts (fold_left apply_effect effects s).
Proof.
  revert s. induction effects as [|e effects IH]; intros s Hs H; [exact Hs|].
  cbn [fold_left]. apply IH.
  - destruct e as [m | m | s']; cbn [apply_effect]; try exact Hs.
    apply H. left. reflexivity.
  - intros s' Hin. apply H. right. exact Hin.
Qed.

Lemma all_counts_step (st : State) (e : Event) :
  all_counts st -> all_counts (step st e).
Proof.
  intros H. pose proof H as (Hs & Hl & Hf). destruct e as [html | | | data]; cbn [step].
  - unfold load_effect, render_iframe, all_counts.
    cbn [gameData_html gameScore iframe listeners isLoading gameStatus
         suggestions].
    destruct html as [[|c s]|]; cbn [has_game gameScore listeners iframe].
    + split; [exact Hs|]. split; [exact Hl|]. intros f sn Hi. discriminate.
    + split; [exact Hs|]. split; [exact Hl|]. intros f sn Hi Ho.
      injection Hi as <-. injection Ho as <-. exact Hs.
    + split; [exact Hs|]. split; [exact Hl|]. intros f sn Hi. discriminate.
  - unfold iframe_onload. destruct (iframe st) as [f|] eqn:Ef;
      [|exact H].
    destruct (onload f) as [sn|] eqn:Eo; [|exact H].
    unfold all_counts. cbn [gameScore listeners iframe].
    split; [exact Hs|]. split; [|exact Hf].
    apply Forall_app. split; [exact Hl|]. constructor; [|constructor].
    exact (Hf f sn eq_refl Eo).
  - unfold handleRefresh. destruct (iframe st) as [f|] eqn:Ef;
      [|exact H].
    destruct (gameData_html st) as [[|c s]|];
      try exact H.
    unfold all_counts. cbn [gameScore listeners iframe].
    split; [exact Hs|]. split; [exact Hl|]. intros g sn Hi Ho.
    injection Hi as <-. cbn [onload] in Ho. exact (Hf f sn eq_refl Ho).
  - unfold window_message, all_counts. cbn [gameScore listeners iframe].
    split; [|split; [exact Hl | exact Hf]].
    apply fold_effects_counts; [exact Hs|]. intros s' Hin.
    unfold dispatch in Hin. apply in_flat_map in Hin.
    destruct Hin as (sn & Hsn & Hin). apply listener_sets in Hin. subst s'.
    apply parse_counts. rewrite Forall_forall in Hl. exact (Hl sn Hsn).
Qed.

Lemma all_counts_steps (events : list Event) (st : State) :
  all_counts st -> all_counts (steps st events).
Proof.
  revert st. induction events as [|e events IH]; intros st H; [exact H|].
  apply IH, all_counts_step, H.
Qed.

Lemma all_counts_initial :
  all_counts (mkState None false Empty initialScore [] None []).
Proof.
  split; [exact ScoreInvariant.initial_counts|].
  split; [constructor|]. intros f sn H. discriminate.
Qed.

(** Listeners that all hold the same snapshot set the same score. *)
Lemma same_snapshot (n : nat) (snapshot s current : ScoreState)
    (data : jsval) :
  listener snapshot data = [setGameScore s] ->
  fold_left apply_effect
    (flat_map (fun sn => listener sn data) (repeat snapshot (S n))) current
  = s.
Proof.
  intros H. revert current. induction n as [|n IH]; intros current.
  - cbn [repeat flat_map]. rewrite H. reflexivity.
  - change (repeat snapshot (S (S n)))
      with (snapshot :: repeat snapshot (S n)).
    cbn [flat_map]. rewrite fold_left_app, H. cbn [fold_left apply_effect].
    apply IH.
Qed.

End ComponentFacts.
Module ComponentTheorems.

Import Component Invariants ComponentFacts ScoreMessages.

(** X8. Whatever [gameData] the component is mounted with and whatever
    happens afterwards (new game data, loads of the iframe, refreshes,
    messages), its status is [loading], [ready] or [empty], never
    [error], and it is [empty] exactly when there is no game to show.
    With a game, the suggestions are those of the analyzer for its markup,
    the iframe holds the enhanced markup, and the next load of the iframe
    ends the loading: the status is then [ready].  Without a game there
    is no iframe. *)
Theorem status_follows_game (html : option str) (events : list Event) :
  In (gameStatus (steps (mount html) events)) [Loading; Ready; Empty]
  /\ (gameStatus (steps (mount html) events) = Empty
      <-> has_game (gameData_html (steps (mount html) events)) = false)
  /\ match gameData_html (steps (mount html) events) with
     | Some (c :: s) =>
         suggestions (steps (mount html) events) = analyzeGameHtml (c :: s)
         /\ (exists snapshot,
               iframe (steps (mount html) events)
               = Some (mkIframe (Some (injectGameEnhancements (c :: s)))
                         (Some snapshot)))
         /\ gameStatus (step (steps (mount html) events) IframeLoad) = Ready
         /\ isLoading (step (steps (mount html) events) IframeLoad) = false
     | _ => iframe (steps (mount html) events) = None
     end.
Proof.
  assert (H : consistent (steps (mount html) events)).
  { apply (consistent_steps events (mount html)).
    unfold mount. cbn [step]. apply consistent_load. }
  destruct H as (Hin & He & Hg). split; [exact Hin|]. split; [exact He|].
  destruct (gameData_html (steps (mount html) events)) as [[|c s]|];
    try exact Hg.
  destruct Hg as (Hs & snapshot & Hf). split; [exact Hs|].
  split; [exists snapshot; exact Hf|].
  cbn [step]. unfold iframe_onload. rewrite Hf. cbn [onload].
  split; reflexivity.
Qed.

(** X9. No event ever takes a [message] listener off the window, and
    every load of the iframe adds one: once a game is loaded and refreshed
    [k] times there are [k + 1] listeners, and a single alert of the game
    is shown [k + 1] times. *)
Theorem listeners_pile_up (st : State) (events : list Event)
    (c : cu) (s : str) (k : nat) (msg : jsval) :
  (exists added, listeners (steps st events) = listeners st ++ added)
  /\ length (listeners (refreshed (c :: s) k)) = S k
  /\ toasts (refreshed (c :: s) k) (Bridge.alert msg)
     = repeat (message_info msg) (S k).
Proof.
  split; [apply listeners_steps|]. rewrite refreshed_state.
  cbn [listeners]. split; [apply repeat_length|].
  unfold toasts, dispatch. cbn [listeners].
  induction (S k) as [|n IH]; [reflexivity|].
  cbn [repeat flat_map].
  change (listener initialScore (Bridge.alert msg)) with [message_info msg].
  cbn [app filter]. rewrite IH. reflexivity.
Qed.

Lemma listener_update (snapshot : ScoreState) (d : cu) (t : str) :
  listener snapshot (status_message (d :: t))
  = [setGameScore (parse snapshot (score_payload (d :: t)))].
Proof.
  unfold listener, status_message. rewrite Protocol.posted_status.
  change (strict_equals (VStr (js "score-update")) "score-update") with true.
  cbv iota. rewrite Protocol.text_update. reflexivity.
Qed.

(** X10. The listeners read the score of the render that loaded the game,
    not the current one: after a game is loaded (and refreshed any number
    of times), whatever messages came before, a score update with a
    non-empty status text gives the state that the parser makes of the
    initial state.  A field that an earlier update had set and this one
    does not mention is lost: after [正确:3] and then [错误:1] the score is
    0, 1, 0, where the parser run from state to state gives 3, 1, 0. *)
Theorem updates_read_first_render (c : cu) (s : str) (k : nat)
    (before : list jsval) (d : cu) (t : str) :
  gameScore
    (steps (refreshed (c :: s) k)
       (map Message (before ++ [status_message (d :: t)])))
  = parse initialScore (score_payload (d :: t))
  /\ gameScore (steps (refreshed fragment 0) (map Message correct_then_wrong))
     = mkScore (of_Z 0) (of_Z 1) (of_Z 0)
  /\ run [score_payload (js "正确:3"); score_payload (js "错误:1")]
     = mkScore (of_Z 3) (of_Z 1) (of_Z 0).
Proof.
  split; [|split; vm_compute; reflexivity].
  rewrite map_app, steps_app. cbn [map steps fold_left step].
  unfold window_message, dispatch. cbn [gameScore].
  fold (steps (refreshed (c :: s) k) (map Message before)).
  rewrite listeners_messages, refreshed_state. cbn [listeners].
  apply same_snapshot, listener_update.
Qed.

(** X11. Whatever game the component is mounted with and whatever happens
    afterwards, each field of the score it holds is the Number value of a
    non-negative integer. *)
Theorem score_stays_counts (html : option str) (events : list Event) :
  is_count (correct (gameScore (steps (mount html) events)))
  /\ is_count (wrong (gameScore (steps (mount html) events)))
  /\ is_count (progress (gameScore (steps (mount html) events))).
Proof.
  apply (all_counts_steps events (mount html)).
  unfold mount. apply all_counts_step, all_counts_initial.
Qed.

End ComponentTheorems.
(* ================================================================== *)
(** * Enhancing a document twice *)
(* ================================================================== *)

Module Reinjection.

Import InjectorFacts.

Lemma same_cut (x x' y y' : str) :
  x ++ y = x' ++ y' -> length x = length x' -> x = x' /\ y = y'.
Proof.
  revert x'. induction x as [|c x IH]; intros [|c' x'] H Hl;
    try discriminate; [auto|].
  injection H as -> H. injection Hl as Hl.
  destruct (IH x' H Hl) as [-> ->]. auto.
Qed.

Lemma first_split_unique (p s pre post pre' post' : str) :
  first_split p s pre post -> first_split p s pre' post' ->
  pre' = pre /\ post' = post.
Proof.
  intros [Hs Hmin] [Hs' Hmin'].
  assert (Hl : length pre' = length pre).
  { apply Nat.le_antisymm.
    - apply Hmin'. exists pre, post. auto.
    - apply Hmin. exists pre', post'. auto. }
  rewrite Hs in Hs'. symmetry in Hs'.
  destruct (same_cut _ _ _ _ Hs' Hl) as [-> Hp].
  apply app_inv_head in Hp. auto.
Qed.

(** No occurrence across [p ++ q] when no proper suffix of [w] starts like
    [q]. *)
Lemma not_occurs_across (w p q q' : str) (c : cu) :
  q = c :: q' -> ~ In c (tl w) ->
  ~ occurs w p -> ~ occurs w q -> ~ occurs w (p ++ q).
Proof.
  intros Hq Hc Hp Hq' H. apply occurs_iff_at in H. destruct H as [m H].
  apply occurs_at_app in H.
  destruct H as [H | [[_ H] | (u & v & Hw & Hu & Hv & _ & [t Ht])]].
  - apply Hp. exact (occurs_at_occurs _ _ _ H).
  - apply Hq'. exact (occurs_at_occurs _ _ _ H).
  - rewrite Hq in Ht. destruct v as [|d v]; [congruence|].
    simpl in Ht. injection Ht as <- _.
    destruct u as [|a u]; [congruence|].
    apply Hc. rewrite Hw. simpl. apply in_or_app. right. left. reflexivity.
Qed.

(** Text that ends with the bundle and holds no [w] is followed by the
    first [w], when [w] has no space in it. *)
Lemma first_after_bundle (w x post : str) :
  ~ In 32%N w -> w <> [] ->
  ~ occurs w (x ++ enhancements) ->
  first_split w ((x ++ enhancements) ++ w ++ post) (x ++ enhancements) post.
Proof.
  intros Hsp Hw Hx. split; [reflexivity|]. intros m Hm.
  apply occurs_at_app in Hm.
  destruct Hm as [H | [[Hle _] | (u & v & Huv & Hu & Hv & [t Ht] & _)]].
  - exfalso. apply Hx. exact (occurs_at_occurs _ _ _ H).
  - exact Hle.
  - exfalso. rewrite ContentPreservation.bundle_last, app_assoc in Ht.
    symmetry in Ht.
    destruct (last_of_suffix _ _ _ _ Hu Ht) as [u' ->].
    apply Hsp. rewrite Huv, <- app_assoc. apply in_or_app. right. left.
    reflexivity.
Qed.

Lemma no_head_in_prefix (pre post : str) :
  first_split (js "</head>") (pre ++ js "</head>" ++ post) pre post ->
  ~ occurs (js "</head>") pre.
Proof.
  intros [_ Hmin] (a & b & ->).
  assert (H : length (a ++ js "</head>" ++ b) <= length a).
  { apply Hmin. exists a, (b ++ js "</head>" ++ post).
    rewrite <- !app_assoc. auto. }
  rewrite !length_app in H. simpl in H. lia.
Qed.

Lemma includes_inside (w x y : str) : includes (x ++ w ++ y) w = true.
Proof. apply includes_spec. exists x, y. reflexivity. Qed.

Lemma head_not_in_bundle : ~ occurs (js "</head>") enhancements.
Proof. apply includes_false. vm_compute. reflexivity. Qed.

Lemma body_not_in_bundle : ~ occurs (js "<body>") enhancements.
Proof. apply includes_false. vm_compute. reflexivity. Qed.

Lemma head_not_in_wrapped :
  ~ occurs (js "</head>") (js "<head>" ++ enhancements).
Proof. apply includes_false. vm_compute. reflexivity. Qed.

Lemma no_space_in_head : ~ In 32%N (js "</head>").
Proof. apply ContentPreservation.not_in. vm_compute. reflexivity. Qed.

Lemma no_space_in_body : ~ In 32%N (js "<body>").
Proof. apply ContentPreservation.not_in. vm_compute. reflexivity. Qed.

(** The second pass over a document enhanced at [</head>]. *)
Lemma reinject_head (pre post : str) :
  first_split (js "</head>") (pre ++ js "</head>" ++ post) pre post ->
  injectGameEnhancements (pre ++ enhancements ++ js "</head>" ++ post)
  = pre ++ enhancements ++ enhancements ++ js "</head>" ++ post.
Proof.
  intros Hfirst.
  assert (Hx : ~ occurs (js "</head>") (pre ++ enhancements)).
  { apply (ContentPreservation.not_occurs_app_first _ _ _
             (tl enhancements) 10%N ContentPreservation.bundle_first).
    - apply ContentPreservation.not_in. vm_compute. reflexivity.
    - apply no_head_in_prefix with post. exact Hfirst.
    - exact head_not_in_bundle. }
  assert (Hs := first_after_bundle (js "</head>") pre post
                  no_space_in_head ltac:(discriminate) Hx).
  replace (pre ++ enhancements ++ js "</head>" ++ post)
    with ((pre ++ enhancements) ++ js "</head>" ++ post)
    by (rewrite <- !app_assoc; reflexivity).
  destruct (inject_head _ (includes_inside (js "</head>")
                             (pre ++ enhancements) post))
    as (pre' & post' & Hs' & ->).
  destruct (first_split_unique _ _ _ _ _ _ Hs Hs') as [-> ->].
  rewrite <- !app_assoc. reflexivity.
Qed.

(** The second pass over a document enhanced at [<body>]. *)
Lemma reinject_body (pre post : str) :
  ~ occurs (js "</head>") pre ->
  injectGameEnhancements
    (pre ++ js "<head>" ++ enhancements ++ js "</head>" ++ js "<body>"
         ++ post)
  = pre ++ js "<head>" ++ enhancements ++ enhancements ++ js "</head>"
        ++ js "<body>" ++ post.
Proof.
  intros Hpre.
  assert (Hx : ~ occurs (js "</head>")
                 ((pre ++ js "<head>") ++ enhancements)).
  { rewrite <- app_assoc.
    apply (not_occurs_across _ _ _ (tl (js "<head>" ++ enhancements)) 60%N
             eq_refl).
    - apply ContentPreservation.not_in. vm_compute. reflexivity.
    - exact Hpre.
    - exact head_not_in_wrapped. }
  assert (Hs := first_after_bundle (js "</head>") (pre ++ js "<head>")
                  (js "<body>" ++ post)
                  no_space_in_head ltac:(discriminate) Hx).
  replace (pre ++ js "<head>" ++ enhancements ++ js "</head>" ++ js "<body>"
               ++ post)
    with (((pre ++ js "<head>") ++ enhancements) ++ js "</head>"
            ++ js "<body>" ++ post)
    by (rewrite <- !app_assoc; reflexivity).
  destruct (inject_head _ (includes_inside (js "</head>")
                             ((pre ++ js "<head>") ++ enhancements)
                             (js "<body>" ++ post)))
    as (pre' & post' & Hs' & ->).
  destruct (first_split_unique _ _ _ _ _ _ Hs Hs') as [-> ->].
  rewrite <- !app_assoc. reflexivity.
Qed.

(** The second pass over a document with the bundle put in front. *)
Lemma reinject_front (html : str) :
  ~ occurs (js "</head>") html -> ~ occurs (js "<body>") html ->
  injectGameEnhancements (enhancements ++ html)
  = enhancements ++ enhancements ++ html.
Proof.
  intros Hh Hb. apply inject_prepend; apply includes_false.
  - exact (ContentPreservation.not_occurs_app_last _ _ _ _ 32%N
             ContentPreservation.bundle_last no_space_in_head
             head_not_in_bundle Hh).
  - exact (ContentPreservation.not_occurs_app_last _ _ _ _ 32%N
             ContentPreservation.bundle_last no_space_in_body
             body_not_in_bundle Hb).
Qed.

(** X12. The injector does not see its own work: run on its own output, it
    puts a second copy of the bundle right before the first one, at the
    same place of the document, and wraps no second head.  The output
    grows by the length of the bundle each time. *)
Theorem bundle_doubles (html : str) :
  (exists before after,
     injectGameEnhancements html = before ++ enhancements ++ after
     /\ injectGameEnhancements (injectGameEnhancements html)
        = before ++ enhancements ++ enhancements ++ after)
  /\ length (injectGameEnhancements (injectGameEnhancements html))
     = length (injectGameEnhancements html) + length enhancements.
Proof.
  assert (H : exists before after,
     injectGameEnhancements html = before ++ enhancements ++ after
     /\ injectGameEnhancements (injectGameEnhancements html)
        = before ++ enhancements ++ enhancements ++ after).
  { destruct (includes html (js "</head>")) eqn:Eh.
    - destruct (inject_head html Eh) as (pre & post & Hs & E).
      exists pre, (js "</head>" ++ post). split; [exact E|].
      rewrite E. apply reinject_head.
      destruct Hs as [Hs Hmin]. rewrite <- Hs. split; assumption.
    - destruct (includes html (js "<body>")) eqn:Eb.
      + destruct (inject_body html Eh Eb) as (pre & post & Hs & E).
        exists (pre ++ js "<head>"), (js "</head>" ++ js "<body>" ++ post).
        rewrite <- !app_assoc. split; [exact E|].
        rewrite E. apply reinject_body.
        intros Hp. apply includes_false in Eh. apply Eh.
        destruct Hs as [-> _]. apply occurs_app_l. exact Hp.
      + exists [], html. rewrite (inject_prepend html Eh Eb).
        split; [reflexivity|].
        apply reinject_front; apply includes_false; assumption. }
  split; [exact H|].
  destruct H as (before & after & -> & ->). rewrite !length_app. lia.
Qed.

End Reinjection.
(* ================================================================== *)
(** * The order of the numbers *)
(* ================================================================== *)

Module OrderFacts.

Import Ordering.

Local Open Scope Z_scope.



Lemma lex_flip (a b : Z * Z * Z) : lex b a = CompOpp (lex a b).
Proof.
  unfold lex.
  rewrite (Z.compare_antisym (fst (fst a)) (fst (fst b))),
          (Z.compare_antisym (snd (fst a)) (snd (fst b))),
          (Z.compare_antisym (snd a) (snd b)).
  destruct (fst (fst a) ?= fst (fst b)); try reflexivity.
  destruct (snd (fst a) ?= snd (fst b)); reflexivity.
Qed.

Lemma compare_rank (x y : number) :
  x <> NaN -> y <> NaN -> SFcompare x y = Some (lex (rank x) (rank y)).
Proof.
  intros Hx Hy.
  destruct x as [sx | sx | | sx mx ex]; try (exfalso; apply Hx; reflexivity);
    destruct y as [sy | sy | | sy my ey];
    try (exfalso; apply Hy; reflexivity);
    try (destruct sx; destruct sy; reflexivity).
  destruct sx, sy; try reflexivity.
  unfold SFcompare, rank, lex. cbn [fst snd].
  rewrite Z.compare_opp, (Z.compare_antisym ex ey).
  change (-1 ?= -1) with Eq. cbv iota.
  destruct (ex ?= ey); reflexivity.
Qed.

Lemma compared (x y : number) (c : comparison) :
  SFcompare x y = Some c -> x <> NaN /\ y <> NaN.
Proof.
  destruct x, y; try discriminate; intros _; split; discriminate.
Qed.


Lemma compare_flip (x y : number) (c : comparison) :
  SFcompare x y = Some c -> SFcompare y x = Some (CompOpp c).
Proof.
  intros H. destruct (compared x y c H) as [Hx Hy].
  rewrite (compare_rank x y Hx Hy) in H. injection H as <-.
  rewrite (compare_rank y x Hy Hx), lex_flip. reflexivity.
Qed.







Lemma lt_not_le (a b : number) : SFltb a b = true -> SFleb b a = false.
Proof.
  unfold SFltb, SFleb. destruct (SFcompare a b) as [c|] eqn:E;
    [|discriminate].
  rewrite (compare_flip a b c E). destruct c; try discriminate. reflexivity.
Qed.





End OrderFacts.
(* ================================================================== *)
(** * The sizes stay within the budget *)
(* ================================================================== *)

Module BudgetTheorems.

Import Ordering OrderFacts Fit LayoutSamples.




End BudgetTheorems.
(* ================================================================== *)
(** * The choice of the game root *)
(* ================================================================== *)

Module PickerFacts.

Import RootPicker PickerInvariant OrderFacts.






End PickerFacts.

Module PickerTheorems.

Import RootPicker PickerInvariant PickerFacts.


End PickerTheorems.
(* ================================================================== *)
(** * Further theorems on sample inputs *)
(* ================================================================== *)

Module Scenarios.

(** A status text with all three counts. *)
Lemma full_status_counts :
  has_labelled_number "正确" (js "正确:3 错误:1 进度:5")
  /\ has_labelled_number "错误" (js "正确:3 错误:1 进度:5")
  /\ has_labelled_number "进度" (js "正确:3 错误:1 进度:5").
Proof.
  split; [|split].
  - exists 0, [], (js ":"), (js "3"), (js " 错误:1 进度:5").
    split; [vm_compute; reflexivity|]. split; [reflexivity|].
    split; [apply Witnesses.all_check; vm_compute; reflexivity|].
    split; [discriminate|].
    apply Witnesses.all_check; vm_compute; reflexivity.
  - exists 5, (js "正确:3 "), (js ":"), (js "1"), (js " 进度:5").
    split; [vm_compute; reflexivity|]. split; [reflexivity|].
    split; [apply Witnesses.all_check; vm_compute; reflexivity|].
    split; [discriminate|].
    apply Witnesses.all_check; vm_compute; reflexivity.
  - exists 10, (js "正确:3 错误:1 "), (js ":"), (js "5"), [].
    split; [vm_compute; reflexivity|]. split; [reflexivity|].
    split; [apply Witnesses.all_check; vm_compute; reflexivity|].
    split; [discriminate|].
    apply Witnesses.all_check; vm_compute; reflexivity.
Qed.

(** X6 on a status text with all three counts: the state before does not
    matter. *)
Lemma parse_complete_sample :
  score_text (score_payload (js "正确:3 错误:1 进度:5"))
  = Some (js "正确:3 错误:1 进度:5")
  /\ parse some_score (score_payload (js "正确:3 错误:1 进度:5"))
     = parse initialScore (score_payload (js "正确:3 错误:1 进度:5")).
Proof.
  assert (E : score_text (score_payload (js "正确:3 错误:1 进度:5"))
              = Some (js "正确:3 错误:1 进度:5"))
    by (vm_compute; reflexivity).
  split; [exact E|].
  destruct full_status_counts as (Hc & Hw & Hp).
  exact (ScoreAlgebra.parse_complete some_score initialScore _ _ E Hc Hw Hp).
Defined.

End Scenarios.
